(** * Battleship matchmaking and battle server (src/server.js)

    A shallow embedding of the socket handlers of [server.js]: the
    process-wide state ([waitingPlayer], [games]), the properties the
    handlers store on socket objects, the pending [setTimeout] callbacks,
    and the four handlers [join_queue], [player_ready], [fire] and
    [disconnect], each as a function from the server state to the new
    state and the messages emitted.  A JavaScript [TypeError] raised by a
    handler is an explicit outcome.

    Numbers sent by clients are modelled as integers ([Z]); the printed
    form used in Shot Record keys is the decimal one. *)

From Stdlib Require Import Ascii.
From stdpp Require Import gmap strings list fin_maps pretty.

Open Scope Z_scope.

(** ** Data model *)

(** The two string-keyed sides, ['p1'] and ['p2']. *)
Inductive Slot := P1 | P2.

(** [phase]: placement | battle | finished. *)
Inductive Phase := placement | battle | finished.

(** [resultType] of a shot. *)
Inductive ResultType := miss | hit | sunk.

(** [type] of a log entry: ['system'] or the result type of a shot. *)
Inductive EntryType := system | shot (rt : ResultType).

Global Instance Slot_eq_dec : EqDecision Slot.
Proof. solve_decision. Defined.
Global Instance Phase_eq_dec : EqDecision Phase.
Proof. solve_decision. Defined.
Global Instance ResultType_eq_dec : EqDecision ResultType.
Proof. solve_decision. Defined.
Global Instance EntryType_eq_dec : EqDecision EntryType.
Proof. solve_decision. Defined.

Record logEntry := { type : EntryType; text : string }.

(** A cell [[row, col]] of a ship layout. *)
Definition cell : Type := Z * Z.

(** A board is a 2D grid whose cells hold a ship id, or 0 when empty. *)
Definition Board : Type := list (list Z).

(** One side of a game: [{ id, name, board, ships, ready, shotsFired }].
    [board] and [ships] are [null] until the side submits them. *)
Record side := {
  side_id : string;
  side_name : string;
  board : option Board;
  ships : option (gmap Z (list cell));
  ready : bool;
  shotsFired : gmap string ResultType
}.

(** The game object built by [createGame]. *)
Record game := {
  game_id : string;
  p1 : side;
  p2 : side;
  turn : Slot;
  phase : Phase;
  winner : option Slot;
  log : list logEntry;
  totalCells : nat
}.

(** [{ id, socket, name }]: the socket is the one whose id is [pl_id]. *)
Record player := { pl_id : string; pl_name : string }.

(** The properties the handlers store on a socket object.  [gameId] and
    [slot] are written together by [createGame] and nowhere else, so they
    are one optional pair. *)
Record socket := {
  playerName : option string;
  binding : option (string * Slot);
  rooms : list string
}.

Definition fresh_socket : socket :=
  {| playerName := None; binding := None; rooms := [] |}.

(** Payload of ['shot_result']. *)
Record shotResult := {
  sr_shooter : Slot;
  sr_r : Z;
  sr_c : Z;
  sr_resultType : ResultType;
  sr_affectedCells : list cell;
  sr_turn : Slot;
  sr_phase : Phase;
  sr_winner : option Slot;
  sr_log : list logEntry
}.

Inductive message :=
  | waiting (position : Z)
  | game_found (gameId p1Name p2Name : string)
  | you_are_ready
  | waiting_for_opponent_ready
  | battle_start (t : Slot) (l : list logEntry)
  | not_your_turn
  | shot_result (payload : shotResult)
  | opponent_disconnected.

(** [socket.emit], [io.to(room).emit], [socket.to(room).emit]. *)
Inductive dest :=
  | to_socket (sid : string)
  | to_room (gameId : string)
  | to_room_except (gameId sid : string).

Definition emission : Type := dest * message.

(** Process state: the two globals, the socket objects that carry
    handler-written properties, and the callbacks handed to [setTimeout]
    so far, as [(delay in ms, game id to delete)]. *)
Record server := {
  waitingPlayer : option player;
  games : gmap string game;
  sockets : gmap string socket;
  timers : list (Z * string)
}.

Definition init : server :=
  {| waitingPlayer := None; games := ∅; sockets := ∅; timers := [] |}.

(** A handler either runs to completion or raises a [TypeError]. *)
Inductive outcome (A : Type) :=
  | Ok (a : A)
  | TypeError.
Arguments Ok {A} a.
Arguments TypeError {A}.

(** ** Field updates *)

Definition get_side (g : game) (s : Slot) : side :=
  match s with P1 => p1 g | P2 => p2 g end.

Definition set_side (g : game) (s : Slot) (sd : side) : game :=
  match s with
  | P1 => {| game_id := game_id g; p1 := sd; p2 := p2 g; turn := turn g;
             phase := phase g; winner := winner g; log := log g;
             totalCells := totalCells g |}
  | P2 => {| game_id := game_id g; p1 := p1 g; p2 := sd; turn := turn g;
             phase := phase g; winner := winner g; log := log g;
             totalCells := totalCells g |}
  end.

Definition set_turn (g : game) (t : Slot) : game :=
  {| game_id := game_id g; p1 := p1 g; p2 := p2 g; turn := t;
     phase := phase g; winner := winner g; log := log g;
     totalCells := totalCells g |}.

Definition set_phase (g : game) (ph : Phase) : game :=
  {| game_id := game_id g; p1 := p1 g; p2 := p2 g; turn := turn g;
     phase := ph; winner := winner g; log := log g;
     totalCells := totalCells g |}.

Definition set_winner (g : game) (w : option Slot) : game :=
  {| game_id := game_id g; p1 := p1 g; p2 := p2 g; turn := turn g;
     phase := phase g; winner := w; log := log g;
     totalCells := totalCells g |}.

Definition set_log (g : game) (l : list logEntry) : game :=
  {| game_id := game_id g; p1 := p1 g; p2 := p2 g; turn := turn g;
     phase := phase g; winner := winner g; log := l;
     totalCells := totalCells g |}.

Definition set_shotsFired (sd : side) (m : gmap string ResultType) : side :=
  {| side_id := side_id sd; side_name := side_name sd; board := board sd;
     ships := ships sd; ready := ready sd; shotsFired := m |}.

Definition set_games (st : server) (gs : gmap string game) : server :=
  {| waitingPlayer := waitingPlayer st; games := gs; sockets := sockets st;
     timers := timers st |}.

Definition set_waitingPlayer (st : server) (w : option player) : server :=
  {| waitingPlayer := w; games := games st; sockets := sockets st;
     timers := timers st |}.

Definition set_sockets (st : server) (ss : gmap string socket) : server :=
  {| waitingPlayer := waitingPlayer st; games := games st; sockets := ss;
     timers := timers st |}.

Definition set_timers (st : server) (ts : list (Z * string)) : server :=
  {| waitingPlayer := waitingPlayer st; games := games st;
     sockets := sockets st; timers := ts |}.

(** The socket object of connection [sid]; one that no handler has
    written to yet carries no properties. *)
Definition sock (st : server) (sid : string) : socket :=
  default fresh_socket (sockets st !! sid).

(** ** Shot resolution: the body of [socket.on('fire')] *)

(** [slot === 'p1' ? 'p2' : 'p1'] *)
Definition opponent (s : Slot) : Slot :=
  match s with P1 => P2 | P2 => P1 end.

(** [r + ',' + c] *)
Definition key (r c : Z) : string := pretty r +:+ "," +:+ pretty c.

Definition cell_key (x : cell) : string := key x.1 x.2.

(** [opponentBoard[r]]: [undefined] outside the array. *)
Definition board_row (b : Board) (r : Z) : option (list Z) :=
  if decide (0 ≤ r) then b !! Z.to_nat r else None.

(** [row[c]]; [undefined] outside the row is falsy like 0. *)
Definition row_cell (row : list Z) (c : Z) : Z :=
  if decide (0 ≤ c) then default 0 (row !! Z.to_nat c) else 0.

(** [const cols = 'АБВГДЕЖЗИК'] *)
Definition cols : list string :=
  ["А"; "Б"; "В"; "Г"; "Д"; "Е"; "Ж"; "З"; "И"; "К"].

(** [cols[c] + (r + 1)]: string concatenation for a column of the
    alphabet; [undefined + number] is [NaN] otherwise.  The handler
    evaluates it only after it has read row [r] of the opponent's board
    (line 116), so [r] is an array index there: [r + 1] is exact and is
    printed in decimal, as it is for every row below 2^53 - 1.  Beyond
    that the double arithmetic of the source rounds [r + 1], which this
    definition does not follow. *)
Definition coord_label (r c : Z) : string :=
  match (if decide (0 ≤ c) then cols !! Z.to_nat c else None) with
  | Some letter => letter +:+ pretty (r + 1)
  | None => "NaN"
  end.

(** [shotsFired[key]] is truthy exactly when the key is present: the
    handler only ever stores the non-empty strings miss, hit, sunk, and a
    key holds a comma, so it names no inherited property of the object. *)
Definition fired (shots : gmap string ResultType) (x : cell) : Prop :=
  is_Some (shots !! cell_key x).

Global Instance fired_dec shots x : Decision (fired shots x).
Proof. unfold fired. apply _. Defined.

(** [shipCells.filter(([sr, sc]) => shotsFired[sr+','+sc]).length] *)
Definition prevHits (shots : gmap string ResultType) (shipCells : list cell) : nat :=
  length (filter (fired shots) shipCells).

(** [affectedCells.forEach(([sr, sc]) => shotsFired[sr+','+sc] = resultType)] *)
Definition record_shots (shots : gmap string ResultType)
    (affectedCells : list cell) (rt : ResultType) : gmap string ResultType :=
  foldl (λ m x, <[cell_key x := rt]> m) shots affectedCells.

Definition is_hit_or_sunk (v : ResultType) : Prop := v = hit ∨ v = sunk.

Global Instance is_hit_or_sunk_dec v : Decision (is_hit_or_sunk v).
Proof. unfold is_hit_or_sunk. apply _. Defined.

(** [Object.values(shotsFired).filter(v => v === 'hit' || v === 'sunk').length] *)
Definition totalHits (shots : gmap string ResultType) : nat :=
  length (filter is_hit_or_sunk (map_to_list shots).*2).

(** [game.log.push(e); if (game.log.length > 50) game.log = game.log.slice(-50)] *)
Definition slice_last {A} (n : nat) (l : list A) : list A :=
  drop (length l - n) l.

Definition push_capped (l : list logEntry) (e : logEntry) : list logEntry :=
  let l' := l ++ [e] in
  if decide (50 < length l')%nat then slice_last 50 l' else l'.

(** Lines 121-141: the result type, the affected cells and the log text.
    [opponentShips[shipId]] is [undefined] for an unknown ship id, and
    calling [filter] on it (or indexing a [null] layout) raises. *)
Definition classify (shots : gmap string ResultType)
    (opponentShips : option (gmap Z (list cell)))
    (shooterName : string) (r c cellValue : Z)
    : outcome (ResultType * list cell * string) :=
  let coord := coord_label r c in
  if decide (cellValue ≠ 0) then
    match opponentShips with
    | None => TypeError
    | Some layout =>
      match layout !! cellValue with
      | None => TypeError
      | Some shipCells =>
        if decide (length shipCells ≤ prevHits shots shipCells + 1)%nat then
          Ok (sunk, shipCells,
              "💥 " +:+ shooterName +:+ " потопил корабль! (" +:+ coord +:+ ")")
        else
          Ok (hit, [(r, c)],
              "🎯 " +:+ shooterName +:+ " попал! (" +:+ coord +:+ ")")
      end
    end
  else
    Ok (miss, [(r, c)],
        "💦 " +:+ shooterName +:+ " промахнулся (" +:+ coord +:+ ")").

(** Lines 154-160: the win check, on the game after recording. *)
Definition check_win (g : game) (slot : Slot) : game :=
  if decide (totalCells g ≤ totalHits (shotsFired (get_side g slot)))%nat then
    let g1 := set_phase g finished in
    let g2 := set_winner g1 (Some slot) in
    set_log g2 (log g2 ++
      [{| type := system;
          text := "🏆 " +:+ side_name (get_side g2 slot) +:+ " ПОБЕДИЛ!" |}])
  else g.

(** Lines 143-152: record the shots, push the log entry under the cap,
    pass the turn on a miss only. *)
Definition apply_shot (g : game) (slot : Slot) (resultType : ResultType)
    (affectedCells : list cell) (logText : string) : game :=
  let g1 := set_side g slot
              (set_shotsFired (get_side g slot)
                 (record_shots (shotsFired (get_side g slot))
                    affectedCells resultType)) in
  let g2 := set_log g1
              (push_capped (log g1)
                 {| type := shot resultType; text := logText |}) in
  if decide (resultType = miss) then set_turn g2 (opponent slot) else g2.

(** Lines 163-172: the payload broadcast to the room. *)
Definition shot_payload (g : game) (slot : Slot) (r c : Z)
    (resultType : ResultType) (affectedCells : list cell) : shotResult :=
  {| sr_shooter := slot; sr_r := r; sr_c := c;
     sr_resultType := resultType; sr_affectedCells := affectedCells;
     sr_turn := turn g; sr_phase := phase g; sr_winner := winner g;
     sr_log := slice_last 10 (log g) |}.

(** What the handler did with a fire request on a resolved game. *)
Inductive fire_result :=
  | fire_return                 (* bare [return], nothing emitted *)
  | fire_not_your_turn          (* ['not_your_turn'] to the caller *)
  | fire_throw                  (* a [TypeError] escapes the handler *)
  | fire_done (g' : game) (msg : shotResult).

(** Lines 103-172, for the game and slot bound to the socket. *)
Definition fire_game (g : game) (slot : Slot) (r c : Z) : fire_result :=
  if decide (phase g ≠ battle) then fire_return
  else if decide (turn g ≠ slot) then fire_not_your_turn
  else
    let opponentSlot := opponent slot in
    let shots := shotsFired (get_side g slot) in
    if decide (is_Some (shots !! key r c)) then fire_return
    else
      match board (get_side g opponentSlot) with
      | None => fire_throw
      | Some opponentBoard =>
        match board_row opponentBoard r with
        | None => fire_throw
        | Some row =>
          let cellValue := row_cell row c in
          match classify shots (ships (get_side g opponentSlot))
                  (side_name (get_side g slot)) r c cellValue with
          | TypeError => fire_throw
          | Ok (resultType, affectedCells, logText) =>
            let g' := check_win
                        (apply_shot g slot resultType affectedCells logText)
                        slot in
            fire_done g' (shot_payload g' slot r c resultType affectedCells)
          end
        end
      end.

(** ** The handlers on the process state *)

Definition socket_join (st : server) (sid room : string) : server :=
  let s := sock st sid in
  set_sockets st
    (<[sid := {| playerName := playerName s; binding := binding s;
                 rooms := rooms s ++ [room] |}]> (sockets st)).

Definition socket_bind (st : server) (sid gameId : string) (slot : Slot) : server :=
  let s := sock st sid in
  set_sockets st
    (<[sid := {| playerName := playerName s; binding := Some (gameId, slot);
                 rooms := rooms s |}]> (sockets st)).

Definition socket_set_name (st : server) (sid name : string) : server :=
  let s := sock st sid in
  set_sockets st
    (<[sid := {| playerName := Some name; binding := binding s;
                 rooms := rooms s |}]> (sockets st)).

Definition new_side (p : player) : side :=
  {| side_id := pl_id p; side_name := pl_name p; board := None;
     ships := None; ready := false; shotsFired := ∅ |}.

(** [p1.id + '_' + p2.id] *)
Definition make_gameId (a b : player) : string :=
  pl_id a +:+ "_" +:+ pl_id b.

Definition new_game (a b : player) : game :=
  {| game_id := make_gameId a b; p1 := new_side a; p2 := new_side b;
     turn := P1; phase := placement; winner := None; log := [];
     totalCells := 20 |}.

(** [createGame(p1, p2)] *)
Definition createGame (st : server) (a b : player) : server * list emission :=
  let gameId := make_gameId a b in
  let st1 := set_games st (<[gameId := new_game a b]> (games st)) in
  let st2 := socket_join st1 (pl_id a) gameId in
  let st3 := socket_join st2 (pl_id b) gameId in
  let st4 := socket_bind st3 (pl_id a) gameId P1 in
  let st5 := socket_bind st4 (pl_id b) gameId P2 in
  (st5, [(to_room gameId, game_found gameId (pl_name a) (pl_name b))]).

(** [socket.on('join_queue', ({ name }) => ...)] *)
Definition on_join_queue (st : server) (sid name : string) : server * list emission :=
  let st1 := socket_set_name st sid name in
  match waitingPlayer st1 with
  | Some w =>
    if decide (pl_id w ≠ sid) then
      let st2 := set_waitingPlayer st1 None in
      createGame st2 {| pl_id := pl_id w; pl_name := pl_name w |}
                     {| pl_id := sid; pl_name := name |}
    else
      (set_waitingPlayer st1 (Some {| pl_id := sid; pl_name := name |}),
       [(to_socket sid, waiting 1)])
  | None =>
    (set_waitingPlayer st1 (Some {| pl_id := sid; pl_name := name |}),
     [(to_socket sid, waiting 1)])
  end.

Definition submit_board (sd : side) (b : Board) (sh : gmap Z (list cell)) : side :=
  {| side_id := side_id sd; side_name := side_name sd; board := Some b;
     ships := Some sh; ready := true; shotsFired := shotsFired sd |}.

(** Lines 75-93 of [socket.on('player_ready')], on the resolved game: the
    new game, and whether the battle was started. *)
Definition ready_game (g : game) (slot : Slot) (b : Board)
    (sh : gmap Z (list cell)) : game * bool :=
  let g1 := set_side g slot (submit_board (get_side g slot) b sh) in
  if ready (get_side g1 (opponent slot)) then
    let g2 := set_phase g1 battle in
    (set_log g2 (log g2 ++ [{| type := system; text := "БОЙ НАЧАЛСЯ!" |}]),
     true)
  else (g1, false).

(** [socket.on('player_ready', ({ board, ships }) => ...)] *)
Definition on_player_ready (st : server) (sid : string) (b : Board)
    (sh : gmap Z (list cell)) : server * list emission :=
  match binding (sock st sid) with
  | None => (st, [])
  | Some (gameId, slot) =>
    match games st !! gameId with
    | None => (st, [])
    | Some g =>
      let '(g', started) := ready_game g slot b sh in
      (set_games st (<[gameId := g']> (games st)),
       (to_socket sid, you_are_ready) ::
       (if started
        then [(to_room gameId, battle_start (turn g') (log g'))]
        else [(to_socket sid, waiting_for_opponent_ready)]))
    end
  end.

(** [socket.on('fire', ({ r, c }) => ...)] *)
Definition on_fire (st : server) (sid : string) (r c : Z)
    : outcome (server * list emission) :=
  match binding (sock st sid) with
  | None => Ok (st, [])
  | Some (gameId, slot) =>
    match games st !! gameId with
    | None => Ok (st, [])
    | Some g =>
      match fire_game g slot r c with
      | fire_return => Ok (st, [])
      | fire_not_your_turn => Ok (st, [(to_socket sid, not_your_turn)])
      | fire_throw => TypeError
      | fire_done g' msg =>
        Ok (set_games st (<[gameId := g']> (games st)),
            [(to_room gameId, shot_result msg)])
      end
    end
  end.

(** Lines 179-182: a disconnecting waiting player leaves the queue. *)
Definition leave_queue (st : server) (sid : string) : server :=
  match waitingPlayer st with
  | Some w => if decide (pl_id w = sid) then set_waitingPlayer st None else st
  | None => st
  end.

(** [socket.on('disconnect', () => ...)] *)
Definition on_disconnect (st : server) (sid : string) : server * list emission :=
  let st1 := leave_queue st sid in
  match binding (sock st1 sid) with
  | None => (st1, [])
  | Some (gameId, _) =>
    match games st1 !! gameId with
    | None => (st1, [])
    | Some g =>
      let '(st2, out) :=
        if decide (phase g ≠ finished) then
          (set_games st1 (<[gameId := set_phase g finished]> (games st1)),
           [(to_room_except gameId sid, opponent_disconnected)])
        else (st1, []) in
      (set_timers st2 (timers st2 ++ [(60000, gameId)]), out)
    end
  end.

(** The timer callback [() => { delete games[gameId]; }]; deleting an
    absent entry does nothing. *)
Definition on_timeout (st : server) (gameId : string) : server :=
  set_games st (delete gameId (games st)).

(** ** Inbound events and runs *)

(** The four socket events, and the expiry of a cleanup timer.  Real time
    is not modelled: a [timeout] may arrive between any two events. *)

Inductive event :=
  | join_queue (sid name : string)
  | player_ready (sid : string) (b : Board) (sh : gmap Z (list cell))
  | fire (sid : string) (r c : Z)
  | disconnect (sid : string)
  | timeout (gameId : string).

Definition step (st : server) (e : event) : outcome (server * list emission) :=
  match e with
  | join_queue sid name => Ok (on_join_queue st sid name)
  | player_ready sid b sh => Ok (on_player_ready st sid b sh)
  | fire sid r c => on_fire st sid r c
  | disconnect sid => Ok (on_disconnect st sid)
  | timeout gameId => Ok (on_timeout st gameId, [])
  end.

(** Events are handled one at a time, each to completion; an escaping
    [TypeError] ends the run. *)
Fixpoint run (st : server) (es : list event) : outcome server :=
  match es with
  | [] => Ok st
  | e :: es' =>
    match step st e with
    | Ok (st', _) => run st' es'
    | TypeError => TypeError
    end
  end.

Inductive reachable : server → Prop :=
  | reachable_init : reachable init
  | reachable_step st e st' out :
      reachable st → step st e = Ok (st', out) → reachable st'.

(** ** Vocabulary of the properties *)

(** The cells of the ship a shot at [(r, c)] strikes on side [sd]: the
    layout entry of the ship id found on the board there, when that
    board value is non-empty. *)
Definition struck_ship (sd : side) (r c : Z) : option (list cell) :=
  match board sd, ships sd with
  | Some b, Some layout =>
    match board_row b r with
    | Some row =>
      if decide (row_cell row c ≠ 0) then layout !! row_cell row c else None
    | None => None
    end
  | _, _ => None
  end.

(** Cell [x] carries a recorded outcome that counts for the win check. *)
Definition recorded_hit (m : gmap string ResultType) (x : cell) : Prop :=
  ∃ v, m !! cell_key x = Some v ∧ is_hit_or_sunk v.

(** A printed number holds no comma, the separator of a key. *)
Fixpoint comma_free (s : string) : Prop :=
  match s with
  | EmptyString => True
  | String a s' => a ≠ ","%char ∧ comma_free s'
  end.

(** The value the shot resolution finds at cell [x] of board [b]; 0 also
    stands for a read outside the board. *)
Definition cell_value (b : Board) (x : cell) : Z :=
  match board_row b x.1 with
  | Some row => row_cell row x.2
  | None => 0
  end.

(** Board and ship layout of a side agree: the cells listed for a ship
    hold its id on the board, and a board cell holding a ship id is
    listed for that ship. *)
Definition layout_agrees (sd : side) : Prop :=
  ∃ b ly, board sd = Some b ∧ ships sd = Some ly ∧
    (∀ id cells x, ly !! id = Some cells → x ∈ cells →
       cell_value b x = id ∧ id ≠ 0) ∧
    (∀ x, cell_value b x ≠ 0 →
       ∃ cells, ly !! cell_value b x = Some cells ∧ x ∈ cells).

(** A Shot Record agrees with the board of the side it was fired at: a
    miss is recorded at empty cells only. *)
Definition record_agrees (shots : gmap string ResultType) (sd : side) : Prop :=
  ∀ b x, board sd = Some b → shots !! cell_key x = Some miss →
    cell_value b x = 0.

(** The reads of the shot resolution succeed on side [sd] at [(r, c)]:
    the board is there, [r] indexes one of its rows, and the value found
    in that row is empty or the id of a ship the layout lists. *)
Definition resolvable (sd : side) (r c : Z) : Prop :=
  ∃ b row, board sd = Some b ∧ 0 ≤ r ∧ b !! Z.to_nat r = Some row ∧
    (row_cell row c = 0 ∨
     ∃ ly cells, ships sd = Some ly ∧ ly !! row_cell row c = Some cells).

(** The claim's count for a ship: how many of its cells already carry a
    recorded outcome in a Shot Record, taken cell by cell. *)
Fixpoint cells_with_outcome (shots : gmap string ResultType)
    (cells : list cell) : nat :=
  match cells with
  | [] => 0
  | (r, c) :: rest =>
    (match shots !! key r c with Some _ => 1 | None => 0 end
     + cells_with_outcome shots rest)%nat
  end.

(** The claim's count for the win: the number of entries of a Shot
    Record whose outcome is hit or sunk. *)
Definition hit_or_sunk_count (shots : gmap string ResultType) : nat :=
  size (filter (λ kv : string * ResultType, kv.2 = hit ∨ kv.2 = sunk) shots).

(** The rows for which [r + 1] is exact in double arithmetic and printed
    in decimal. *)
Definition safe_row (r : Z) : Prop := 0 ≤ r < 2 ^ 53 - 1.

(** Every registered game carries the threshold set by [createGame]. *)
Definition threshold_ok (st : server) : Prop :=
  ∀ gid g, games st !! gid = Some g → totalCells g = 20%nat.

(** ** A concrete match, used to exercise the handlers *)

(** The standard fleet (sizes 4,3,3,2,2,2,1,1,1,1) on a 10x10 board. *)
Definition fleet_board : Board :=
  [ [1; 1; 1; 1; 0; 2; 2; 2; 0; 0];
    [0; 0; 0; 0; 0; 0; 0; 0; 0; 0];
    [3; 3; 3; 0; 4; 4; 0; 5; 5; 0];
    [0; 0; 0; 0; 0; 0; 0; 0; 0; 0];
    [6; 6; 0; 7; 0; 8; 0; 9; 0; 10];
    [0; 0; 0; 0; 0; 0; 0; 0; 0; 0];
    [0; 0; 0; 0; 0; 0; 0; 0; 0; 0];
    [0; 0; 0; 0; 0; 0; 0; 0; 0; 0];
    [0; 0; 0; 0; 0; 0; 0; 0; 0; 0];
    [0; 0; 0; 0; 0; 0; 0; 0; 0; 0] ].

Definition fleet_cells : list (Z * list cell) :=
  [ (1, [(0, 0); (0, 1); (0, 2); (0, 3)]);
    (2, [(0, 5); (0, 6); (0, 7)]);
    (3, [(2, 0); (2, 1); (2, 2)]);
    (4, [(2, 4); (2, 5)]);
    (5, [(2, 7); (2, 8)]);
    (6, [(4, 0); (4, 1)]);
    (7, [(4, 3)]);
    (8, [(4, 5)]);
    (9, [(4, 7)]);
    (10, [(4, 9)]) ].

Definition fleet_ships : gmap Z (list cell) := list_to_map fleet_cells.

(** Two connections pair up and both submit the standard fleet. *)
Definition opening : list event :=
  [ join_queue "a" "A"; join_queue "b" "B";
    player_ready "a" fleet_board fleet_ships;
    player_ready "b" fleet_board fleet_ships ].

(** The first side fires at every ship cell of the second side. *)
Definition sweep : list event :=
  (λ x : cell, fire "a" x.1 x.2) <$> (fleet_cells ≫= snd).

(** Fifteen rounds in which both sides miss, on the empty rows 9 and 8. *)
Definition skirmish : list event :=
  ([0; 1; 2; 3; 4; 5; 6; 7; 8; 9] ≫= λ c : Z, [fire "a" 9 c; fire "b" 9 c]) ++
  ([0; 1; 2; 3; 4] ≫= λ c : Z, [fire "a" 8 c; fire "b" 8 c]).

(** A second side whose layout lists a cell that its board leaves empty. *)
Definition short_board : Board := [[1; 0]].

Definition long_ships : gmap Z (list cell) := {[ 1 := [(0, 0); (0, 1)] ]}.

Definition mismatched : list event :=
  [ join_queue "a" "A"; join_queue "b" "B";
    player_ready "a" fleet_board fleet_ships;
    player_ready "b" short_board long_ships;
    fire "a" 0 1; fire "b" 1 1 ].

(** A second side whose layout lists no cell at all for its ship. *)
Definition no_cells : list event :=
  [ join_queue "a" "A"; join_queue "b" "B";
    player_ready "a" fleet_board fleet_ships;
    player_ready "b" short_board {[ 1 := [] ]} ].

(** The state a run from the empty server ends in. *)
Definition after (es : list event) : server :=
  match run init es with Ok st => st | TypeError => init end.

(** The game of connections a and b once both are ready. *)
Definition fleet_side (sid name : string) : side :=
  {| side_id := sid; side_name := name; board := Some fleet_board;
     ships := Some fleet_ships; ready := true; shotsFired := ∅ |}.

Definition battle_game : game :=
  {| game_id := "a_b"; p1 := fleet_side "a" "A"; p2 := fleet_side "b" "B";
     turn := P1; phase := battle; winner := None;
     log := [{| type := system; text := "БОЙ НАЧАЛСЯ!" |}];
     totalCells := 20 |}.

(** The game of connections a and b after a run. *)
Definition game_after (es : list event) : game :=
  default battle_game (games (after es) !! "a_b").

(** A board and a layout that agree, with a ship on cells the standard
    fleet leaves empty; the second side submits them during the battle,
    after the first side has missed at one of those cells. *)
Definition late_board : Board := [[0; 0; 0]; [0; 1; 1]].

Definition late_ships : gmap Z (list cell) := {[ 1 := [(1, 1); (1, 2)] ]}.

Definition board_swap : list event :=
  opening ++
  [ fire "a" 1 1;
    player_ready "b" late_board late_ships;
    fire "b" 1 1 ].

(** ** Basic facts about the field updates *)

Lemma opponent_ne (s : Slot) : opponent s ≠ s.
Proof. by destruct s. Qed.

Lemma opponent_involutive (s : Slot) : opponent (opponent s) = s.
Proof. by destruct s. Qed.

Lemma get_side_set_side (g : game) (s : Slot) (sd : side) :
  get_side (set_side g s sd) s = sd.
Proof. by destruct s. Qed.

Lemma get_side_set_side_opponent (g : game) (s : Slot) (sd : side) :
  get_side (set_side g s sd) (opponent s) = get_side g (opponent s).
Proof. by destruct s. Qed.

(** ** The Shot Record after [forEach] *)

Lemma record_shots_lookup (cells : list cell) (rt : ResultType) :
  ∀ (m : gmap string ResultType) (k : string),
    record_shots m cells rt !! k =
      if decide (k ∈ cell_key <$> cells) then Some rt else m !! k.
Proof.
  unfold record_shots.
  induction cells as [|x cells IH]; intros m k.
  - rewrite decide_False; [done|]. rewrite fmap_nil. apply not_elem_of_nil.
  - cbn [foldl]. rewrite IH, fmap_cons.
    destruct (decide (k ∈ cell_key <$> cells)) as [Hin|Hin].
    + rewrite decide_True; [done | by right].
    + rewrite lookup_insert.
      destruct (decide (cell_key x = k)) as [<-|Hne].
      * rewrite decide_True; [done | by left].
      * rewrite decide_False; [done|].
        intros [?|?]%elem_of_cons; congruence.
Qed.

Lemma record_shots_single (m : gmap string ResultType) (r c : Z) (rt : ResultType) :
  record_shots m [(r, c)] rt = <[key r c := rt]> m.
Proof. done. Qed.

Lemma record_shots_dom (cells : list cell) (rt : ResultType)
    (m : gmap string ResultType) :
  dom (record_shots m cells rt) = dom m ∪ list_to_set (cell_key <$> cells).
Proof.
  apply set_eq. intros k.
  rewrite elem_of_union, !elem_of_dom, record_shots_lookup, elem_of_list_to_set.
  destruct (decide (k ∈ cell_key <$> cells)) as [Hin|Hin].
  - split; [by right | by eexists].
  - split; [by left | by intros [?|?]].
Qed.

(** ** Inversion of an accepted fire *)

(** An accepted fire ran past every guard, read a row of the opponent's
    board, classified the shot and produced the broadcast payload. *)
Lemma fire_done_inv (g : game) (slot : Slot) (r c : Z) (g' : game) (msg : shotResult) :
  fire_game g slot r c = fire_done g' msg →
  ∃ opponentBoard row rt cells txt,
    phase g = battle ∧ turn g = slot ∧
    shotsFired (get_side g slot) !! key r c = None ∧
    board (get_side g (opponent slot)) = Some opponentBoard ∧
    board_row opponentBoard r = Some row ∧
    classify (shotsFired (get_side g slot)) (ships (get_side g (opponent slot)))
      (side_name (get_side g slot)) r c (row_cell row c) = Ok (rt, cells, txt) ∧
    g' = check_win (apply_shot g slot rt cells txt) slot ∧
    msg = shot_payload g' slot r c rt cells.
Proof.
  unfold fire_game. intros H.
  destruct (decide (phase g ≠ battle)) as [|Hph]; [done|].
  destruct (decide (turn g ≠ slot)) as [|Ht]; [done|].
  destruct (decide (is_Some _)) as [|Hk]; [done|].
  destruct (board (get_side g (opponent slot))) as [b|] eqn:Hb; [|done].
  destruct (board_row b r) as [row|] eqn:Hrow; [|done].
  destruct (classify _ _ _ _ _ _) as [[[rt cells] txt]|] eqn:Hcl; [|done].
  injection H as <- <-.
  exists b, row, rt, cells, txt.
  repeat split; try done.
  - by destruct (decide (phase g = battle)).
  - by destruct (decide (turn g = slot)).
  - by apply eq_None_not_Some.
Qed.

(** Conversely, a fire that passes the guards and whose reads succeed is
    accepted. *)
Lemma fire_done_intro (g : game) (slot : Slot) (r c : Z)
    (opponentBoard : Board) (row : list Z) rt cells txt :
  phase g = battle → turn g = slot →
  shotsFired (get_side g slot) !! key r c = None →
  board (get_side g (opponent slot)) = Some opponentBoard →
  board_row opponentBoard r = Some row →
  classify (shotsFired (get_side g slot)) (ships (get_side g (opponent slot)))
    (side_name (get_side g slot)) r c (row_cell row c) = Ok (rt, cells, txt) →
  let g' := check_win (apply_shot g slot rt cells txt) slot in
  fire_game g slot r c = fire_done g' (shot_payload g' slot r c rt cells).
Proof.
  intros Hph Ht Hk Hb Hrow Hcl. unfold fire_game.
  rewrite decide_False by (by rewrite Hph; intros []).
  rewrite decide_False by (by rewrite Ht; intros []).
  rewrite decide_False by (rewrite Hk; by intros []).
  by rewrite Hb, Hrow, Hcl.
Qed.

Lemma classify_inv shots layout name (r c v : Z) rt cells txt :
  classify shots layout name r c v = Ok (rt, cells, txt) →
  (v = 0 ∧ rt = miss ∧ cells = [(r, c)]) ∨
  (v ≠ 0 ∧ ∃ ly shipCells,
     layout = Some ly ∧ ly !! v = Some shipCells ∧
     (((length shipCells ≤ prevHits shots shipCells + 1)%nat ∧
       rt = sunk ∧ cells = shipCells) ∨
      (¬ (length shipCells ≤ prevHits shots shipCells + 1)%nat ∧
       rt = hit ∧ cells = [(r, c)]))).
Proof.
  unfold classify. intros H.
  destruct (decide (v ≠ 0)) as [Hv|Hv].
  - right. split; [done|].
    destruct layout as [ly|]; [|done].
    destruct (ly !! v) as [shipCells|] eqn:Hly; [|done].
    exists ly, shipCells. split; [done|]. split; [done|].
    destruct (decide (_ ≤ _)%nat); simplify_eq; [left|right]; done.
  - left. simplify_eq. split; [|done].
    by destruct (decide (v = 0)).
Qed.

Lemma apply_shot_shotsFired g slot rt cells txt :
  shotsFired (get_side (apply_shot g slot rt cells txt) slot) =
  record_shots (shotsFired (get_side g slot)) cells rt.
Proof. unfold apply_shot. destruct (decide (rt = miss)), slot; done. Qed.

Lemma apply_shot_turn g slot rt cells txt :
  turn (apply_shot g slot rt cells txt) =
  if decide (rt = miss) then opponent slot else turn g.
Proof. unfold apply_shot. destruct (decide (rt = miss)), slot; done. Qed.

Lemma apply_shot_phase g slot rt cells txt :
  phase (apply_shot g slot rt cells txt) = phase g.
Proof. unfold apply_shot. destruct (decide (rt = miss)), slot; done. Qed.

Lemma apply_shot_winner g slot rt cells txt :
  winner (apply_shot g slot rt cells txt) = winner g.
Proof. unfold apply_shot. destruct (decide (rt = miss)), slot; done. Qed.

Lemma apply_shot_totalCells g slot rt cells txt :
  totalCells (apply_shot g slot rt cells txt) = totalCells g.
Proof. unfold apply_shot. destruct (decide (rt = miss)), slot; done. Qed.

Lemma apply_shot_log g slot rt cells txt :
  log (apply_shot g slot rt cells txt) =
  push_capped (log g) {| type := shot rt; text := txt |}.
Proof. unfold apply_shot. destruct (decide (rt = miss)), slot; done. Qed.

Lemma check_win_get_side g slot s :
  get_side (check_win g slot) s = get_side g s.
Proof. unfold check_win. destruct (decide _), s; done. Qed.

Lemma check_win_turn g slot : turn (check_win g slot) = turn g.
Proof. unfold check_win. by destruct (decide _). Qed.

Lemma check_win_totalCells g slot : totalCells (check_win g slot) = totalCells g.
Proof. unfold check_win. by destruct (decide _). Qed.

(** ** Turn ownership *)

(** C1: on an accepted fire (phase battle, the caller's turn, a coordinate
    not fired at before) the turn is unchanged when the result is a hit or
    a sunk, and it is the opposite side exactly when the result is a miss. *)
Theorem fire_turn_flips_iff_miss (g : game) (slot : Slot) (r c : Z)
    (g' : game) (msg : shotResult) :
  fire_game g slot r c = fire_done g' msg →
  (phase g = battle ∧ turn g = slot ∧
   shotsFired (get_side g slot) !! key r c = None) ∧
  (sr_resultType msg = hit ∨ sr_resultType msg = sunk → turn g' = turn g) ∧
  (turn g' = opponent (turn g) ↔ sr_resultType msg = miss) ∧
  sr_turn msg = turn g'.
Proof.
  intros H.
  destruct (fire_done_inv _ _ _ _ _ _ H)
    as (b & row & rt & cells & txt & Hph & Ht & Hk & _ & _ & _ & -> & ->).
  split; [done|].
  unfold shot_payload. cbn [sr_resultType sr_turn].
  rewrite !check_win_turn, !apply_shot_turn.
  destruct (decide (rt = miss)) as [->|Hrt].
  - rewrite Ht. split; [intros [?|?]; done|]. done.
  - split; [done|]. split; [|done].
    split; [|done]. intros Heq. by destruct (opponent_ne (turn g)).
Qed.

Lemma fire_turn_flips_iff_miss_witness :
  ∃ g' msg,
    fire_game battle_game P1 1 1 = fire_done g' msg ∧
    sr_resultType msg = miss ∧ turn g' = P2.
Proof.
  destruct (fire_game battle_game P1 1 1) as [| | |g' msg] eqn:H;
    [vm_compute in H; discriminate..|].
  exists g', msg. split; [done|].
  destruct (fire_turn_flips_iff_miss _ _ _ _ _ _ H) as (_ & _ & Hiff & _).
  assert (Hm : sr_resultType msg = miss).
  { vm_compute in H. by injection H as <- <-. }
  split; [done|]. by apply Hiff.
Defined.

(** ** The win check *)

Lemma check_win_spec (g : game) (slot : Slot) :
  let n := totalHits (shotsFired (get_side g slot)) in
  ((totalCells g ≤ n)%nat →
     phase (check_win g slot) = finished ∧
     winner (check_win g slot) = Some slot) ∧
  ((n < totalCells g)%nat →
     phase (check_win g slot) = phase g ∧
     winner (check_win g slot) = winner g ∧
     log (check_win g slot) = log g).
Proof.
  unfold check_win. cbn zeta.
  destruct (decide (totalCells g ≤ _)%nat); split; intros; try done; lia.
Qed.

Lemma threshold_insert (m : gmap string game) (gid : string) (g : game) :
  (∀ k x, m !! k = Some x → totalCells x = 20%nat) →
  totalCells g = 20%nat →
  ∀ k x, <[gid := g]> m !! k = Some x → totalCells x = 20%nat.
Proof.
  intros Hm Hg k x. rewrite lookup_insert.
  destruct (decide (gid = k)); [congruence | apply Hm].
Qed.

Lemma ready_game_totalCells g slot b sh :
  totalCells (ready_game g slot b sh).1 = totalCells g.
Proof. unfold ready_game. by destruct (ready _), slot. Qed.

Lemma fire_done_totalCells g slot r c g' msg :
  fire_game g slot r c = fire_done g' msg → totalCells g' = totalCells g.
Proof.
  intros Hf.
  destruct (fire_done_inv _ _ _ _ _ _ Hf)
    as (? & ? & rt & cells & txt & _ & _ & _ & _ & _ & _ & -> & _).
  by rewrite check_win_totalCells, apply_shot_totalCells.
Qed.

Lemma leave_queue_games st sid : games (leave_queue st sid) = games st.
Proof.
  unfold leave_queue. destruct (waitingPlayer st) as [w|]; [|done].
  by destruct (decide (pl_id w = sid)).
Qed.

Lemma leave_queue_sockets st sid : sockets (leave_queue st sid) = sockets st.
Proof.
  unfold leave_queue. destruct (waitingPlayer st) as [w|]; [|done].
  by destruct (decide (pl_id w = sid)).
Qed.

Lemma leave_queue_timers st sid : timers (leave_queue st sid) = timers st.
Proof.
  unfold leave_queue. destruct (waitingPlayer st) as [w|]; [|done].
  by destruct (decide (pl_id w = sid)).
Qed.

Lemma sock_leave_queue st sid sid' :
  sock (leave_queue st sid) sid' = sock st sid'.
Proof. unfold sock. by rewrite leave_queue_sockets. Qed.

Lemma step_threshold_ok (st : server) (e : event) (st' : server) out :
  threshold_ok st → step st e = Ok (st', out) → threshold_ok st'.
Proof.
  unfold threshold_ok.
  intros Hst Hstep. destruct e as [sid name|sid b sh|sid r c|sid|gid]; simpl in Hstep.
  - injection Hstep as Hstep. unfold on_join_queue, createGame in Hstep.
    destruct (waitingPlayer (socket_set_name st sid name)) as [w|];
      [destruct (decide (pl_id w ≠ sid))|]; simplify_eq; try exact Hst.
    cbn. by apply threshold_insert.
  - injection Hstep as Hstep. unfold on_player_ready in Hstep.
    destruct (binding (sock st sid)) as [[gid slot]|]; [|by simplify_eq].
    destruct (games st !! gid) as [g|] eqn:Hg; [|by simplify_eq].
    pose proof (ready_game_totalCells g slot b sh) as Hr.
    destruct (ready_game g slot b sh) as [g1 started].
    simplify_eq. cbn. apply threshold_insert; [done|].
    cbn in Hr. rewrite Hr. by apply (Hst gid).
  - unfold on_fire in Hstep.
    destruct (binding (sock st sid)) as [[gid slot]|]; [|by simplify_eq].
    destruct (games st !! gid) as [g|] eqn:Hg; [|by simplify_eq].
    destruct (fire_game g slot r c) as [| | |g1 msg] eqn:Hf; simplify_eq;
      try exact Hst.
    cbn. apply threshold_insert; [done|].
    rewrite (fire_done_totalCells _ _ _ _ _ _ Hf). by apply (Hst gid).
  - injection Hstep as Hstep. unfold on_disconnect in Hstep.
    fold (leave_queue st sid) in Hstep.
    pose proof (leave_queue_games st sid) as Hg1.
    destruct (binding (sock (leave_queue st sid) sid)) as [[gid slot]|];
      [|simplify_eq; by rewrite Hg1].
    destruct (games (leave_queue st sid) !! gid) as [g|] eqn:Hg;
      [|simplify_eq; by rewrite Hg1].
    rewrite Hg1 in Hg.
    destruct (decide (phase g ≠ finished)); simplify_eq; cbn;
      rewrite Hg1; [|exact Hst].
    apply threshold_insert; [done|]. cbn. by apply (Hst gid).
  - simplify_eq. intros gid' g'. cbn. rewrite lookup_delete.
    destruct (decide (gid = gid')); [done | apply Hst].
Qed.

(** X13: in every reachable state every registered game carries the win
    threshold 20 that [createGame] gave it: no handler writes it. *)
Lemma reachable_threshold_ok (st : server) : reachable st → threshold_ok st.
Proof.
  induction 1 as [|st e st' out _ IH Hstep]; [done|].
  by eapply step_threshold_ok.
Qed.

(** ** Refiring *)

(** C4: in phase battle, a fire by the side whose turn it is at a
    coordinate already a key of that side's Shot Record leaves the whole
    server state (and so the session) unchanged and emits nothing. *)
Theorem refire_is_noop (st : server) (sid gid : string) (slot : Slot)
    (g : game) (r c : Z) :
  binding (sock st sid) = Some (gid, slot) →
  games st !! gid = Some g →
  phase g = battle →
  turn g = slot →
  is_Some (shotsFired (get_side g slot) !! key r c) →
  on_fire st sid r c = Ok (st, []) ∧
  step st (fire sid r c) = Ok (st, []).
Proof.
  intros Hb Hg Hph Ht Hk.
  assert (on_fire st sid r c = Ok (st, [])) as Hfire; [|done].
  unfold on_fire. rewrite Hb, Hg. unfold fire_game.
  rewrite decide_False by (by rewrite Hph; intros []).
  rewrite decide_False by (by rewrite Ht; intros []).
  by rewrite decide_True.
Qed.

Lemma refire_is_noop_witness :
  let st := after (opening ++ [fire "a" 0 0]) in
  ∃ g, binding (sock st "a") = Some ("a_b", P1) ∧
       games st !! "a_b" = Some g ∧
       phase g = battle ∧ turn g = P1 ∧
       shotsFired (get_side g P1) !! key 0 0 = Some hit ∧
       step st (fire "a" 0 0) = Ok (st, []).
Proof.
  intros st.
  destruct (games st !! "a_b") as [g|] eqn:Hg; [|vm_compute in Hg; discriminate].
  assert (Hb : binding (sock st "a") = Some ("a_b", P1))
    by (vm_compute; reflexivity).
  assert (Hfacts : phase g = battle ∧ turn g = P1 ∧
                   shotsFired (get_side g P1) !! key 0 0 = Some hit).
  { vm_compute in Hg. injection Hg as <-. vm_compute. done. }
  destruct Hfacts as (Hph & Ht & Hk).
  exists g. repeat (split; [done|]).
  apply (refire_is_noop st "a" "a_b" P1 g 0 0 Hb Hg Hph Ht).
  rewrite Hk. by eexists.
Defined.

(** ** Phase order *)

(** An accepted fire keeps the phase or moves it forward to finished. *)
Lemma fire_done_phase g slot r c g' msg :
  fire_game g slot r c = fire_done g' msg →
  phase g = battle ∧ (phase g' = battle ∨ phase g' = finished).
Proof.
  intros H.
  destruct (fire_done_inv _ _ _ _ _ _ H)
    as (b & row & rt & cells & txt & Hph & _ & _ & _ & _ & _ & -> & _).
  split; [done|]. unfold check_win.
  destruct (decide _); [by right|]. left. by rewrite apply_shot_phase.
Qed.

(** [player_ready] never returns a game to placement, but it does set
    battle whatever the phase was. *)
Lemma ready_game_phase g slot b sh :
  phase (ready_game g slot b sh).1 =
  if ready (get_side g (opponent slot)) then battle else phase g.
Proof.
  unfold ready_game. rewrite get_side_set_side_opponent.
  by destruct (ready (get_side g (opponent slot))), slot.
Qed.

(** X18: a step of [fire] or [disconnect] keeps a finished session
    registered and finished. *)
Lemma fire_disconnect_keep_finished (st : server) (e : event) (st' : server)
    out (gid : string) (g : game) :
  (∃ sid r c, e = fire sid r c) ∨ (∃ sid, e = disconnect sid) →
  step st e = Ok (st', out) →
  games st !! gid = Some g → phase g = finished →
  ∃ g', games st' !! gid = Some g' ∧ phase g' = finished.
Proof.
  intros [(sid & r & c & ->)|(sid & ->)] Hstep Hg Hph; cbn in Hstep.
  - unfold on_fire in Hstep.
    destruct (binding (sock st sid)) as [[gid0 slot]|]; [|simplify_eq; eauto].
    destruct (games st !! gid0) as [g0|] eqn:Hg0; [|simplify_eq; eauto].
    destruct (fire_game g0 slot r c) as [| | |g1 msg] eqn:Hf;
      simplify_eq; eauto.
    cbn. rewrite lookup_insert.
    destruct (decide (gid0 = gid)) as [->|]; [|eauto].
    destruct (fire_done_phase _ _ _ _ _ _ Hf) as [Hb _]. congruence.
  - injection Hstep as Hstep. unfold on_disconnect in Hstep.
    rewrite sock_leave_queue, leave_queue_games in Hstep.
    destruct (binding (sock st sid)) as [[gid0 slot]|];
      [|simplify_eq; rewrite leave_queue_games; eauto].
    destruct (games st !! gid0) as [g0|] eqn:Hg0;
      [|simplify_eq; rewrite leave_queue_games; eauto].
    destruct (decide (phase g0 ≠ finished)); simplify_eq; cbn;
      [|rewrite leave_queue_games; eauto].
    rewrite lookup_insert.
    destruct (decide (gid0 = gid)) as [->|]; [by eexists|eauto].
Qed.

(** X19: no step of [player_ready], [fire] or [disconnect] returns a
    session to placement: a registered game that has left placement is
    still registered and out of placement after the step. *)
Lemma session_events_leave_placement (st : server) (e : event) (st' : server)
    out (gid : string) (g : game) :
  (∃ sid b sh, e = player_ready sid b sh) ∨ (∃ sid r c, e = fire sid r c) ∨
    (∃ sid, e = disconnect sid) →
  step st e = Ok (st', out) →
  games st !! gid = Some g → phase g ≠ placement →
  ∃ g', games st' !! gid = Some g' ∧ phase g' ≠ placement.
Proof.
  intros [(sid & b & sh & ->)|[(sid & r & c & ->)|(sid & ->)]] Hstep Hg Hph;
    cbn in Hstep.
  - injection Hstep as Hstep. unfold on_player_ready in Hstep.
    destruct (binding (sock st sid)) as [[gid0 slot]|]; [|simplify_eq; eauto].
    destruct (games st !! gid0) as [g0|] eqn:Hg0; [|simplify_eq; eauto].
    pose proof (ready_game_phase g0 slot b sh) as Hr.
    destruct (ready_game g0 slot b sh) as [g1 started]. simplify_eq. cbn.
    rewrite lookup_insert.
    destruct (decide (gid0 = gid)) as [->|]; [|eauto].
    eexists; split; [done|]. cbn in Hr. rewrite Hr.
    destruct (ready _); [done | congruence].
  - unfold on_fire in Hstep.
    destruct (binding (sock st sid)) as [[gid0 slot]|]; [|simplify_eq; eauto].
    destruct (games st !! gid0) as [g0|] eqn:Hg0; [|simplify_eq; eauto].
    destruct (fire_game g0 slot r c) as [| | |g1 msg] eqn:Hf;
      simplify_eq; eauto.
    cbn. rewrite lookup_insert.
    destruct (decide (gid0 = gid)) as [->|]; [|eauto].
    eexists; split; [done|].
    destruct (fire_done_phase _ _ _ _ _ _ Hf) as [_ [-> | ->]]; done.
  - injection Hstep as Hstep. unfold on_disconnect in Hstep.
    rewrite sock_leave_queue, leave_queue_games in Hstep.
    destruct (binding (sock st sid)) as [[gid0 slot]|];
      [|simplify_eq; rewrite leave_queue_games; eauto].
    destruct (games st !! gid0) as [g0|] eqn:Hg0;
      [|simplify_eq; rewrite leave_queue_games; eauto].
    destruct (decide (phase g0 ≠ finished)); simplify_eq; cbn;
      [|rewrite leave_queue_games; eauto].
    rewrite lookup_insert.
    destruct (decide (gid0 = gid)) as [->|]; [by eexists|eauto].
Qed.

(** C5 (violated by the code): the handler of player_ready has no phase
    guard, so a session that is finished, by a disconnection or by a win,
    is taken back to battle when the remaining side submits ready again. *)
Theorem player_ready_reopens_finished :
  phase <$> games (after (opening ++ [disconnect "a"])) !! "a_b"
    = Some finished ∧
  phase <$> games (after (opening ++ [disconnect "a";
                     player_ready "b" fleet_board fleet_ships])) !! "a_b"
    = Some battle ∧
  phase <$> games (after (opening ++ sweep)) !! "a_b" = Some finished ∧
  phase <$> games (after (opening ++ sweep ++
                     [player_ready "b" fleet_board fleet_ships])) !! "a_b"
    = Some battle.
Proof. repeat split; vm_compute; reflexivity. Qed.

(** ** Matchmaking *)

Lemma sock_socket_bind st sid gid slot sid' :
  binding (sock (socket_bind st sid gid slot) sid') =
  if decide (sid = sid') then Some (gid, slot) else binding (sock st sid').
Proof.
  unfold sock, socket_bind. cbn. rewrite lookup_insert.
  by destruct (decide (sid = sid')).
Qed.

(** C6: the Waiting Slot holds at most one participant, after a join it is
    empty or holds the participant that just joined; a session is created
    only when someone with a different connection id is waiting, the slot
    is then cleared, and the waiting participant is side p1 of the new
    session and the new arrival side p2. *)
Theorem join_queue_pairs (st : server) (sid name : string) :
  let st' := (on_join_queue st sid name).1 in
  let out := (on_join_queue st sid name).2 in
  let me := {| pl_id := sid; pl_name := name |} in
  (waitingPlayer st' = None ∨ waitingPlayer st' = Some me) ∧
  match waitingPlayer st with
  | Some w =>
    if decide (pl_id w = sid) then
      waitingPlayer st' = Some me ∧ games st' = games st ∧
      out = [(to_socket sid, waiting 1)]
    else
      let gid := pl_id w +:+ "_" +:+ sid in
      waitingPlayer st' = None ∧
      games st' = <[gid := new_game w me]> (games st) ∧
      side_id (p1 (new_game w me)) = pl_id w ∧
      side_name (p1 (new_game w me)) = pl_name w ∧
      side_id (p2 (new_game w me)) = sid ∧
      side_name (p2 (new_game w me)) = name ∧
      binding (sock st' (pl_id w)) = Some (gid, P1) ∧
      binding (sock st' sid) = Some (gid, P2) ∧
      out = [(to_room gid, game_found gid (pl_name w) name)]
  | None =>
    waitingPlayer st' = Some me ∧ games st' = games st ∧
    out = [(to_socket sid, waiting 1)]
  end.
Proof.
  cbn zeta. unfold on_join_queue.
  replace (waitingPlayer (socket_set_name st sid name))
    with (waitingPlayer st) by done.
  destruct (waitingPlayer st) as [[wid wname]|]; cbn [pl_id pl_name].
  - destruct (decide (wid ≠ sid)) as [Hne|Heq].
    + rewrite decide_False by done.
      unfold createGame. cbn [fst snd].
      split; [by left|]. split; [done|]. split; [done|].
      repeat (split; [done|]).
      rewrite !sock_socket_bind. cbn [pl_id].
      rewrite decide_False by done. rewrite !decide_True by done. done.
    + rewrite decide_True by (by destruct (decide (wid = sid))).
      cbn. split; [by right | done].
  - cbn. split; [by right | done].
Qed.

(** ** The Event Log cap *)

Lemma push_capped_length (l : list logEntry) (e : logEntry) :
  (length (push_capped l e) ≤ 50)%nat.
Proof.
  unfold push_capped, slice_last.
  destruct (decide (50 < length (l ++ [e]))%nat); [|lia].
  rewrite length_drop. lia.
Qed.

Lemma push_capped_suffix (l : list logEntry) (e : logEntry) :
  push_capped l e `suffix_of` l ++ [e].
Proof.
  unfold push_capped, slice_last.
  destruct (decide (50 < length (l ++ [e]))%nat); [|done].
  apply suffix_drop.
Qed.

(** The entry of the shot itself is pushed under the cap ... *)
Lemma apply_shot_log_length g slot rt cells txt :
  (length (log (apply_shot g slot rt cells txt)) ≤ 50)%nat.
Proof. rewrite apply_shot_log. apply push_capped_length. Qed.

(** ... but the victory entry is pushed after the truncation. *)
Lemma check_win_log_length (g : game) (slot : Slot) :
  (totalCells g ≤ totalHits (shotsFired (get_side g slot)))%nat →
  length (log (check_win g slot)) = S (length (log g)).
Proof.
  intros Hwin. unfold check_win. rewrite decide_True by done.
  cbn. rewrite length_app. cbn. lia.
Qed.

(** C7 (violated by the code): the log is truncated to 50 entries before
    the victory entry is pushed, so a match won after 49 or more earlier
    entries ends with a log of 51 entries; and the battle-start entry of
    player_ready is pushed with no truncation at all. *)
Theorem victory_entry_exceeds_cap :
  length ∘ log <$> games (after (opening ++ skirmish ++ sweep)) !! "a_b"
    = Some 51%nat ∧
  length ∘ log <$>
    games (after (opening ++
             replicate 60 (player_ready "a" fleet_board fleet_ships))) !! "a_b"
    = Some 61%nat.
Proof. split; vm_compute; reflexivity. Qed.

(** ** Deferred removal *)

(** [fire] never touches the timers. *)
Lemma on_fire_timers st sid r c st' out :
  on_fire st sid r c = Ok (st', out) → timers st' = timers st.
Proof.
  unfold on_fire. intros H.
  destruct (binding (sock st sid)) as [[gid slot]|]; [|by simplify_eq].
  destruct (games st !! gid) as [g|]; [|by simplify_eq].
  destruct (fire_game g slot r c); by simplify_eq.
Qed.

(** The winning shot of a sweep of the whole fleet ends the match and
    leaves the timer list empty: setting finished in [fire] schedules no
    removal. *)
Lemma winning_shot_schedules_nothing :
  match step (after (opening ++ take 19 sweep)) (fire "a" 4 9) with
  | Ok (st', _) =>
    phase <$> games (after (opening ++ take 19 sweep)) !! "a_b" = Some battle ∧
    phase <$> games st' !! "a_b" = Some finished ∧
    winner <$> games st' !! "a_b" = Some (Some P1) ∧
    timers st' = []
  | TypeError => False
  end.
Proof. vm_compute. done. Qed.

(** C8, amended: the removal is scheduled by [disconnect].  Whenever a
    connection bound to a registered session disconnects, the session is
    finished afterwards (forced by this step unless it already was, for
    instance by a winning shot, whose winner is kept) and one removal of
    that session is scheduled 60000 ms later; [fire] schedules none. *)
Theorem disconnect_schedules_cleanup (st : server) (sid gid : string)
    (slot : Slot) (g : game) :
  binding (sock st sid) = Some (gid, slot) →
  games st !! gid = Some g →
  let st' := (on_disconnect st sid).1 in
  timers st' = timers st ++ [(60000, gid)] ∧
  phase <$> games st' !! gid = Some finished ∧
  winner <$> games st' !! gid = Some (winner g) ∧
  (∀ sid' r c st'' out,
     on_fire st sid' r c = Ok (st'', out) → timers st'' = timers st).
Proof.
  intros Hb Hg. cbn zeta. unfold on_disconnect. cbn zeta.
  rewrite sock_leave_queue, Hb, leave_queue_games, Hg.
  split; [|split; [|split]].
  - destruct (decide (phase g ≠ finished)); cbn; by rewrite leave_queue_timers.
  - destruct (decide (phase g ≠ finished)) as [|Hfin]; cbn.
    + by rewrite lookup_insert_eq.
    + rewrite leave_queue_games, Hg. cbn. f_equal.
      by destruct (decide (phase g = finished)).
  - destruct (decide (phase g ≠ finished)); cbn.
    + by rewrite lookup_insert_eq.
    + by rewrite leave_queue_games, Hg.
  - intros sid' r c st'' out. apply on_fire_timers.
Qed.

Lemma disconnect_schedules_cleanup_witness :
  let st := after (opening ++ sweep) in
  ∃ g, binding (sock st "b") = Some ("a_b", P2) ∧
       games st !! "a_b" = Some g ∧
       phase g = finished ∧
       timers st = [] ∧
       timers (on_disconnect st "b").1 = [(60000, "a_b")].
Proof.
  intros st.
  destruct (games st !! "a_b") as [g|] eqn:Hg; [|vm_compute in Hg; discriminate].
  assert (Hb : binding (sock st "b") = Some ("a_b", P2))
    by (vm_compute; reflexivity).
  assert (Ht : timers st = []) by (vm_compute; reflexivity).
  exists g. split; [done|]. split; [done|]. split.
  { vm_compute in Hg. by injection Hg as <-. }
  split; [done|].
  destruct (disconnect_schedules_cleanup st "b" "a_b" P2 g Hb Hg) as (Htm & _).
  by rewrite Htm, Ht.
Defined.

(** ** Requests the guards stop, and the one they do not *)

(** X1: a fire from a socket with no bound session, for a session that
    is no longer registered, or in a phase other than battle is dropped:
    the state is unchanged and nothing is emitted; a fire in battle from
    the side whose turn it is not leaves the state unchanged and answers
    the caller alone with not_your_turn. *)
Lemma fire_guarded (st : server) (sid : string) (r c : Z) :
  (binding (sock st sid) = None → on_fire st sid r c = Ok (st, [])) ∧
  (∀ gid slot, binding (sock st sid) = Some (gid, slot) →
     (games st !! gid = None → on_fire st sid r c = Ok (st, [])) ∧
     (∀ g, games st !! gid = Some g →
        (phase g ≠ battle → on_fire st sid r c = Ok (st, [])) ∧
        (phase g = battle → turn g ≠ slot →
           on_fire st sid r c = Ok (st, [(to_socket sid, not_your_turn)])))).
Proof.
  unfold on_fire. split; [by intros ->|].
  intros gid slot ->. split; [by intros ->|].
  intros g ->. unfold fire_game. split.
  - intros Hph. by rewrite decide_True.
  - intros Hph Ht. rewrite decide_False by (by rewrite Hph; intros []).
    by rewrite decide_True.
Qed.

(** No guard looks at the coordinates: a row index outside the
    opponent's board makes [opponentBoard[r]] undefined, and reading
    [[c]] of it raises. *)
Lemma fire_row_outside_throws (g : game) (slot : Slot) (r c : Z) (b : Board) :
  phase g = battle → turn g = slot →
  shotsFired (get_side g slot) !! key r c = None →
  board (get_side g (opponent slot)) = Some b →
  r < 0 ∨ Z.of_nat (length b) ≤ r →
  fire_game g slot r c = fire_throw.
Proof.
  intros Hph Ht Hk Hb Hr. unfold fire_game.
  rewrite decide_False by (by rewrite Hph; intros []).
  rewrite decide_False by (by rewrite Ht; intros []).
  rewrite decide_False by (rewrite Hk; by intros []).
  rewrite Hb.
  assert (board_row b r = None) as ->; [|done].
  unfold board_row. destruct (decide (0 ≤ r)) as [Hr0|]; [|done].
  apply lookup_ge_None_2. lia.
Qed.

(** C9 (violated by the code): in a battle on the 10x10 fleet boards, a
    fire by the side whose turn it is at row 10, or at row -1, passes
    every guard and raises a TypeError at the read of the opponent's
    board. *)
Theorem fire_outside_board_raises :
  phase <$> games (after opening) !! "a_b" = Some battle ∧
  turn <$> games (after opening) !! "a_b" = Some P1 ∧
  binding (sock (after opening) "a") = Some ("a_b", P1) ∧
  step (after opening) (fire "a" 10 0) = TypeError ∧
  step (after opening) (fire "a" (-1) 0) = TypeError.
Proof. repeat split; vm_compute; reflexivity. Qed.

(** ** The tally of hit and sunk entries *)

Lemma totalHits_insert_None (m : gmap string ResultType) (k : string)
    (v : ResultType) :
  m !! k = None →
  totalHits (<[k := v]> m) =
  ((if decide (is_hit_or_sunk v) then 1 else 0) + totalHits m)%nat.
Proof.
  intros Hk. unfold totalHits.
  rewrite (map_to_list_insert m k v Hk), fmap_cons, filter_cons. cbn [snd].
  by destruct (decide (is_hit_or_sunk v)).
Qed.

Lemma totalHits_insert_Some (m : gmap string ResultType) (k : string)
    (v0 v : ResultType) :
  m !! k = Some v0 →
  (totalHits (<[k := v]> m) + (if decide (is_hit_or_sunk v0) then 1 else 0)
   = totalHits m + (if decide (is_hit_or_sunk v) then 1 else 0))%nat.
Proof.
  intros Hk.
  rewrite <-(insert_delete_eq m k v).
  rewrite <-(insert_delete_id m k v0 Hk) at 2.
  rewrite !totalHits_insert_None by apply lookup_delete_eq. lia.
Qed.

(** Overwriting with sunk never lowers the tally. *)
Lemma totalHits_record_sunk_le (cells : list cell) :
  ∀ m : gmap string ResultType,
    (totalHits m ≤ totalHits (record_shots m cells sunk))%nat.
Proof.
  unfold record_shots.
  induction cells as [|x cells IH]; intros m; cbn [foldl]; [done|].
  etrans; [|apply IH].
  destruct (m !! cell_key x) as [v0|] eqn:Hx.
  - pose proof (totalHits_insert_Some m _ v0 sunk Hx) as Hins.
    rewrite (decide_True (P := is_hit_or_sunk sunk)) in Hins by (by right).
    destruct (decide (is_hit_or_sunk v0)); lia.
  - rewrite totalHits_insert_None by done. lia.
Qed.

Lemma recorded_hit_insert_sunk m k x :
  recorded_hit m x → recorded_hit (<[k := sunk]> m) x.
Proof.
  intros (v & Hv & Hhs). unfold recorded_hit. rewrite lookup_insert.
  destruct (decide (k = cell_key x)); [exists sunk; split; [done | by right]|].
  by exists v.
Qed.

(** Overwriting cells that already count leaves the tally as it was. *)
Lemma totalHits_record_sunk_same (cells : list cell) :
  ∀ m : gmap string ResultType,
    (∀ x, x ∈ cells → recorded_hit m x) →
    totalHits (record_shots m cells sunk) = totalHits m.
Proof.
  unfold record_shots.
  induction cells as [|x cells IH]; intros m Hall; cbn [foldl]; [done|].
  rewrite IH.
  - destruct (Hall x) as (v0 & Hx & Hhs); [by left|].
    pose proof (totalHits_insert_Some m _ v0 sunk Hx) as Hins.
    rewrite (decide_True (P := is_hit_or_sunk sunk)) in Hins by (by right).
    rewrite decide_True in Hins by done. lia.
  - intros y Hy. apply recorded_hit_insert_sunk, Hall. by right.
Qed.

(** Sinking a ship whose cells all count already, except the one fired
    at, raises the tally by one. *)
Lemma totalHits_record_sunk_S (cells : list cell) (k0 : string) :
  ∀ m : gmap string ResultType,
    (∀ x, x ∈ cells → cell_key x = k0 ∨ recorded_hit m x) →
    k0 ∈ cell_key <$> cells →
    m !! k0 = None →
    totalHits (record_shots m cells sunk) = S (totalHits m).
Proof.
  induction cells as [|x cells IH]; intros m Hall Hin Hk0.
  { by apply elem_of_nil in Hin. }
  change (record_shots m (x :: cells) sunk)
    with (record_shots (<[cell_key x := sunk]> m) cells sunk).
  destruct (decide (cell_key x = k0)) as [Heq|Hne].
  - rewrite totalHits_record_sunk_same.
    + rewrite Heq, totalHits_insert_None by done.
      by rewrite decide_True by (by right).
    + intros y Hy. destruct (Hall y) as [Hy0|Hrec]; [by right| |].
      * exists sunk. rewrite Hy0, Heq, lookup_insert_eq.
        split; [done | by right].
      * by apply recorded_hit_insert_sunk.
  - destruct (Hall x) as [?|(v0 & Hx & Hhs)]; [by left|done|].
    rewrite IH.
    + pose proof (totalHits_insert_Some m _ v0 sunk Hx) as Hins.
      rewrite (decide_True (P := is_hit_or_sunk sunk)) in Hins by (by right).
      rewrite decide_True in Hins by done. lia.
    + intros y Hy. destruct (Hall y) as [Hy0|Hrec]; [by right|by left|].
      right. by apply recorded_hit_insert_sunk.
    + rewrite fmap_cons in Hin. apply elem_of_cons in Hin as [?|?]; congruence.
    + by rewrite lookup_insert_ne.
Qed.

Lemma prevHits_cons shots (x : cell) (cells : list cell) :
  prevHits shots (x :: cells) =
  ((if decide (fired shots x) then 1 else 0) + prevHits shots cells)%nat.
Proof.
  unfold prevHits. rewrite filter_cons.
  by destruct (decide (fired shots x)).
Qed.

Lemma prevHits_le shots (cells : list cell) :
  (prevHits shots cells ≤ length cells)%nat.
Proof. apply length_filter. Qed.

(** When the count of fired cells plus one reaches the size of the ship,
    the ship has at most one cell not fired at. *)
Lemma last_cell_unique shots (cells : list cell) :
  (length cells ≤ prevHits shots cells + 1)%nat →
  ∀ x y, x ∈ cells → y ∈ cells → ¬ fired shots x → ¬ fired shots y → x = y.
Proof.
  induction cells as [|a l IH]; intros Hlen x y Hx Hy Hfx Hfy.
  { by apply elem_of_nil in Hx. }
  rewrite prevHits_cons in Hlen. cbn [length] in Hlen.
  pose proof (prevHits_le shots l) as Hle.
  destruct (decide (fired shots a)) as [Ha|Ha].
  - apply elem_of_cons in Hx as [->|Hx]; [done|].
    apply elem_of_cons in Hy as [->|Hy]; [done|].
    apply IH; [lia|done..].
  - assert (Hall : ∀ z, z ∈ l → fired shots z).
    { intros z Hz. destruct (decide (fired shots z)) as [|Hnz]; [done|].
      pose proof (length_filter_lt (fired shots) l z Hz Hnz) as Hlt.
      unfold prevHits in Hlen. lia. }
    apply elem_of_cons in Hx as [->|Hx]; [|by destruct Hfx; apply Hall].
    apply elem_of_cons in Hy as [->|Hy]; [done|by destruct Hfy; apply Hall].
Qed.

Lemma not_miss_is_hit_or_sunk (v : ResultType) : v ≠ miss → is_hit_or_sunk v.
Proof. destruct v; [done | by left | by right]. Qed.

(** On two malformed layouts the Shot Record and the tally do not move
    by one key and one point: a layout that lists a cell the board leaves
    empty turns a recorded miss into sunk (the tally rises by 2), and a
    layout with an empty cell list records nothing at all on a sunk. *)
Lemma sunk_on_mismatched_layout :
  match games (after mismatched) !! "a_b" with
  | Some g =>
    match fire_game g P1 0 0 with
    | fire_done g' msg =>
      sr_resultType msg = sunk ∧
      shotsFired (p1 g) !! key 0 1 = Some miss ∧
      shotsFired (p1 g') !! key 0 1 = Some sunk ∧
      totalHits (shotsFired (p1 g)) = 0%nat ∧
      totalHits (shotsFired (p1 g')) = 2%nat
    | _ => False
    end
  | None => False
  end ∧
  match games (after no_cells) !! "a_b" with
  | Some g =>
    match fire_game g P1 0 0 with
    | fire_done g' msg =>
      sr_resultType msg = sunk ∧
      shotsFired (p1 g') = shotsFired (p1 g) ∧
      shotsFired (p1 g') !! key 0 0 = None
    | _ => False
    end
  | None => False
  end.
Proof. split; vm_compute; done. Qed.

(** An accepted fire met an unfired key; it removes no key and does not
    lower the tally. *)
Lemma fire_record_grows (g : game) (slot : Slot) (r c : Z)
    (g' : game) (msg : shotResult) :
  fire_game g slot r c = fire_done g' msg →
  let shots := shotsFired (get_side g slot) in
  let shots' := shotsFired (get_side g' slot) in
  (key r c ∉ dom shots) ∧ (dom shots ⊆ dom shots') ∧
  (totalHits shots ≤ totalHits shots')%nat.
Proof.
  intros H. cbn zeta.
  destruct (fire_done_inv _ _ _ _ _ _ H)
    as (b & row & rt & cells & txt & _ & _ & Hk & _ & _ & Hcl & -> & _).
  rewrite check_win_get_side, apply_shot_shotsFired.
  split; [by apply not_elem_of_dom|].
  split; [rewrite record_shots_dom; set_solver|].
  apply classify_inv in Hcl
    as [(_ & -> & ->)|(_ & _ & sc & _ & _ & [(_ & -> & ->)|(_ & -> & ->)])].
  - rewrite record_shots_single, totalHits_insert_None by done. lia.
  - apply totalHits_record_sunk_le.
  - rewrite record_shots_single, totalHits_insert_None by done. lia.
Qed.

(** A miss and a non-final hit record the fired coordinate only. *)
Lemma fire_single_record (g : game) (slot : Slot) (r c : Z)
    (g' : game) (msg : shotResult) :
  fire_game g slot r c = fire_done g' msg →
  sr_resultType msg ≠ sunk →
  let shots := shotsFired (get_side g slot) in
  let shots' := shotsFired (get_side g' slot) in
  shots' = <[key r c := sr_resultType msg]> shots ∧
  totalHits shots' =
    (if decide (sr_resultType msg = miss) then totalHits shots
     else S (totalHits shots)).
Proof.
  intros H Hrt. cbn zeta.
  destruct (fire_done_inv _ _ _ _ _ _ H)
    as (b & row & rt & cells & txt & _ & _ & Hk & _ & _ & Hcl & -> & ->).
  rewrite check_win_get_side, apply_shot_shotsFired.
  unfold shot_payload in *. cbn [sr_resultType] in *.
  apply classify_inv in Hcl
    as [(_ & -> & ->)|(_ & _ & sc & _ & _ & [(_ & -> & ->)|(_ & -> & ->)])];
    [|done|].
  - rewrite record_shots_single, totalHits_insert_None by done.
    rewrite decide_False by (by intros [?|?]). by rewrite decide_True.
  - rewrite record_shots_single, totalHits_insert_None by done.
    rewrite decide_True by (by left). by rewrite decide_False.
Qed.

(** A sunk on a ship whose cell list contains the fired coordinate and
    carries no recorded miss: the other cells were all recorded, the fired
    coordinate is the one new key, and the tally rises by one. *)
Lemma fire_sunk_record (g : game) (slot : Slot) (r c : Z)
    (g' : game) (msg : shotResult) (shipCells : list cell) :
  fire_game g slot r c = fire_done g' msg →
  sr_resultType msg = sunk →
  struck_ship (get_side g (opponent slot)) r c = Some shipCells →
  let shots := shotsFired (get_side g slot) in
  let shots' := shotsFired (get_side g' slot) in
  (r, c) ∈ shipCells →
  (∀ x, x ∈ shipCells → shots !! cell_key x ≠ Some miss) →
  dom shots' = {[key r c]} ∪ dom shots ∧
  (∀ x, x ∈ shipCells → x ≠ (r, c) → recorded_hit shots x) ∧
  (∀ x, x ∈ shipCells → shots' !! cell_key x = Some sunk) ∧
  totalHits shots' = S (totalHits shots).
Proof.
  intros H Hrt Hship. cbn zeta. intros Hin Hnomiss.
  destruct (fire_done_inv _ _ _ _ _ _ H)
    as (b & row & rt & cells & txt & _ & _ & Hk & Hb & Hrow & Hcl & -> & ->).
  rewrite check_win_get_side, apply_shot_shotsFired.
  unfold shot_payload in *. cbn [sr_resultType] in *. subst rt.
  set (shots := shotsFired (get_side g slot)) in *.
  apply classify_inv in Hcl
    as [(_ & ? & _)|(Hv & ly & sc & Hl & Hsc & [(Hle & _ & ->)|(_ & ? & _)])];
    [done| |done].
  unfold struck_ship in Hship. rewrite Hb, Hl, Hrow in Hship.
  rewrite decide_True in Hship by done.
  rewrite Hsc in Hship. injection Hship as <-.
  assert (Hk' : ¬ fired shots (r, c)).
  { unfold fired, cell_key. cbn. rewrite Hk. by intros []. }
  assert (Hothers : ∀ x, x ∈ sc → x ≠ (r, c) → recorded_hit shots x).
  { intros x Hx Hne.
    destruct (decide (fired shots x)) as [[v Hv']|Hnf].
    - exists v. split; [done|]. apply not_miss_is_hit_or_sunk.
      intros ->. by apply (Hnomiss x).
    - destruct Hne. by apply (last_cell_unique shots sc Hle). }
  assert (Hkeys : ∀ x, x ∈ sc → cell_key x = key r c ∨ recorded_hit shots x).
  { intros x Hx. destruct (decide (x = (r, c))) as [->|Hne]; [by left|].
    right. by apply Hothers. }
  split; [|split; [done|split]].
  - rewrite record_shots_dom. apply set_eq. intros k.
    rewrite !elem_of_union, elem_of_singleton, elem_of_list_to_set,
      elem_of_dom.
    split.
    + intros [?|Hkin]; [by right|].
      apply list_elem_of_fmap in Hkin as (x & -> & Hx).
      destruct (Hkeys x Hx) as [?|(v & Hv' & _)]; [by left|].
      right. by eexists.
    + intros [->|?]; [|by left]. right.
      by apply (list_elem_of_fmap_2 cell_key) in Hin.
  - intros x Hx. rewrite record_shots_lookup.
    rewrite decide_True; [done|]. by apply list_elem_of_fmap_2.
  - apply (totalHits_record_sunk_S sc (key r c)); [done| |done].
    by apply (list_elem_of_fmap_2 cell_key) in Hin.
Qed.

(** C10, amended: an accepted fire never removes a key of the firing
    side's Shot Record and never lowers its tally of hit or sunk entries.
    A miss and a non-final hit add exactly the fired coordinate, raising
    the tally by 0 and by 1.  A sunk does the same, overwriting the ship's
    other cells, already recorded as hit or sunk, with sunk, and raising
    the tally by exactly 1, provided the struck ship's cell list contains
    the fired coordinate and none of its cells carries a recorded miss. *)
Theorem fire_tally (g : game) (slot : Slot) (r c : Z)
    (g' : game) (msg : shotResult) :
  fire_game g slot r c = fire_done g' msg →
  let shots := shotsFired (get_side g slot) in
  let shots' := shotsFired (get_side g' slot) in
  let rt := sr_resultType msg in
  (key r c ∉ dom shots) ∧
  (dom shots ⊆ dom shots') ∧
  (totalHits shots ≤ totalHits shots')%nat ∧
  (rt = miss →
     shots' = <[key r c := miss]> shots ∧
     totalHits shots' = totalHits shots) ∧
  (rt = hit →
     shots' = <[key r c := hit]> shots ∧
     totalHits shots' = S (totalHits shots)) ∧
  (rt = sunk → ∀ shipCells,
     struck_ship (get_side g (opponent slot)) r c = Some shipCells →
     (r, c) ∈ shipCells →
     (∀ x, x ∈ shipCells → shots !! cell_key x ≠ Some miss) →
     dom shots' = {[key r c]} ∪ dom shots ∧
     (∀ x, x ∈ shipCells → x ≠ (r, c) → recorded_hit shots x) ∧
     (∀ x, x ∈ shipCells → shots' !! cell_key x = Some sunk) ∧
     totalHits shots' = S (totalHits shots)).
Proof.
  intros H. cbn zeta.
  destruct (fire_record_grows _ _ _ _ _ _ H) as (Hfresh & Hsub & Hle).
  repeat (split; [done|]).
  split; [|split].
  - intros Hrt. destruct (fire_single_record _ _ _ _ _ _ H) as [Hrec Htally].
    { by rewrite Hrt. }
    rewrite Hrt in Hrec, Htally. by rewrite decide_True in Htally.
  - intros Hrt. destruct (fire_single_record _ _ _ _ _ _ H) as [Hrec Htally].
    { by rewrite Hrt. }
    rewrite Hrt in Hrec, Htally. by rewrite decide_False in Htally.
  - intros Hrt shipCells Hship Hin Hnomiss.
    by apply (fire_sunk_record _ _ _ _ _ _ _ H Hrt Hship).
Qed.

(** The shot that sinks the three-cell ship after two hits, and a miss. *)
Lemma fire_tally_witness :
  let ship := [(0, 5); (0, 6); (0, 7)] in
  let g2 := game_after (opening ++ [fire "a" 0 5; fire "a" 0 6]) in
  (∃ g' msg,
     fire_game g2 P1 0 7 = fire_done g' msg ∧
     sr_resultType msg = sunk ∧
     struck_ship (get_side g2 P2) 0 7 = Some ship ∧
     totalHits (shotsFired (get_side g2 P1)) = 2%nat ∧
     dom (shotsFired (get_side g' P1)) =
       {[key 0 7]} ∪ dom (shotsFired (get_side g2 P1)) ∧
     recorded_hit (shotsFired (get_side g2 P1)) (0, 5) ∧
     shotsFired (get_side g' P1) !! cell_key (0, 5) = Some sunk ∧
     totalHits (shotsFired (get_side g' P1)) = 3%nat) ∧
  (∃ g' msg,
     fire_game g2 P1 1 1 = fire_done g' msg ∧
     sr_resultType msg = miss ∧
     shotsFired (get_side g' P1) =
       <[key 1 1 := miss]> (shotsFired (get_side g2 P1)) ∧
     totalHits (shotsFired (get_side g' P1)) = 2%nat).
Proof.
  intros ship g2.
  assert (Hn : totalHits (shotsFired (get_side g2 P1)) = 2%nat)
    by (vm_compute; reflexivity).
  split.
  - destruct (fire_game g2 P1 0 7) as [| | |g' msg] eqn:H;
      [vm_compute in H; discriminate..|].
    assert (Hr : sr_resultType msg = sunk).
    { vm_compute in H. by injection H as <- <-. }
    assert (Hs : struck_ship (get_side g2 (opponent P1)) 0 7 = Some ship)
      by (vm_compute; reflexivity).
    destruct (fire_tally _ _ _ _ _ _ H) as (_ & _ & _ & _ & _ & Hsunk).
    destruct (Hsunk Hr ship Hs) as (Hdom & Hothers & Hall & Htally).
    + right; right; by left.
    + intros x Hx. unfold ship in Hx.
      apply elem_of_cons in Hx as [->|Hx]; [vm_compute; discriminate|].
      apply elem_of_cons in Hx as [->|Hx]; [vm_compute; discriminate|].
      apply elem_of_cons in Hx as [->|Hx]; [vm_compute; discriminate|].
      apply elem_of_nil in Hx. destruct Hx.
    + exists g', msg. split; [reflexivity|]. split; [exact Hr|].
      split; [exact Hs|]. split; [exact Hn|]. split; [exact Hdom|].
      split; [apply Hothers; [by left | discriminate]|].
      split; [apply Hall; by left|].
      rewrite Htally, Hn. reflexivity.
  - destruct (fire_game g2 P1 1 1) as [| | |g' msg] eqn:H;
      [vm_compute in H; discriminate..|].
    assert (Hr : sr_resultType msg = miss).
    { vm_compute in H. by injection H as <- <-. }
    destruct (fire_tally _ _ _ _ _ _ H) as (_ & _ & _ & Hmiss & _).
    destruct (Hmiss Hr) as [Hrec Htally].
    exists g', msg. split; [reflexivity|]. split; [exact Hr|].
    split; [exact Hrec|]. rewrite Htally. exact Hn.
Defined.

(** ** Keys and coordinates *)

Lemma comma_free_pretty_N_go (x : N) :
  ∀ s, comma_free s → comma_free (pretty_N_go x s).
Proof.
  induction (N.lt_wf_0 x) as [x _ IH]; intros s Hs.
  assert (x = 0 ∨ 0 < x)%N as [->|Hpos] by lia.
  - by rewrite pretty_N_go_0.
  - rewrite pretty_N_go_step by done. apply IH.
    + by apply N.div_lt.
    + split; [|done]. unfold pretty_N_char. by repeat case_match.
Qed.

Lemma comma_free_pretty_Z (z : Z) : comma_free (pretty z).
Proof.
  assert (HN : ∀ x : N, comma_free (pretty x)).
  { intros x. unfold pretty, pretty_N.
    destruct (decide (x = 0)%N); [by split|].
    by apply comma_free_pretty_N_go. }
  destruct z as [|p|p]; unfold pretty, pretty_Z.
  - by split.
  - apply HN.
  - split; [done|]. apply HN.
Qed.

Lemma split_at_comma (s1 : string) : ∀ s2 t1 t2,
  comma_free s1 → comma_free s2 →
  s1 +:+ String "," t1 = s2 +:+ String "," t2 → s1 = s2 ∧ t1 = t2.
Proof.
  induction s1 as [|a s1 IH]; intros [|b s2] t1 t2 H1 H2 Heq.
  - by injection Heq as ->.
  - injection Heq as <- _. by destruct H2.
  - injection Heq as -> _. by destruct H1.
  - injection Heq as -> Heq. destruct H1 as [_ H1], H2 as [_ H2].
    destruct (IH s2 t1 t2 H1 H2 Heq) as [-> ->]. done.
Qed.

(** Distinct coordinates have distinct keys. *)
Lemma key_inj (r1 c1 r2 c2 : Z) :
  key r1 c1 = key r2 c2 → r1 = r2 ∧ c1 = c2.
Proof.
  unfold key. intros H.
  change (pretty r1 +:+ String "," (pretty c1)
          = pretty r2 +:+ String "," (pretty c2)) in H.
  apply split_at_comma in H as [Hr Hc]; try apply comma_free_pretty_Z.
  split; by apply (inj pretty).
Qed.

Lemma cell_key_inj (x y : cell) : cell_key x = cell_key y → x = y.
Proof.
  destruct x as [r1 c1], y as [r2 c2]. unfold cell_key. cbn.
  intros [-> ->]%key_inj. done.
Qed.

(** ** The counts of the claims and the counters of the code *)

(** [prevHits] is the number of the ship's cells that carry an outcome. *)
Lemma prevHits_counts (shots : gmap string ResultType) (cells : list cell) :
  prevHits shots cells = cells_with_outcome shots cells.
Proof.
  induction cells as [|[r c] cells IH]; [done|].
  rewrite prevHits_cons, IH. cbn [cells_with_outcome]. f_equal.
  destruct (decide (fired shots (r, c))) as [[v Hv]|Hn].
  - change (shots !! key r c = Some v) in Hv. by rewrite Hv.
  - destruct (shots !! key r c) as [v|] eqn:Hv; [|done].
    destruct Hn. by exists v.
Qed.

(** [totalHits] is the number of hit or sunk entries. *)
Lemma totalHits_counts (shots : gmap string ResultType) :
  totalHits shots = hit_or_sunk_count shots.
Proof.
  unfold hit_or_sunk_count.
  induction shots as [|k v m Hk _ IH] using map_first_key_ind.
  - unfold totalHits. by rewrite map_to_list_empty, map_filter_empty, map_size_empty.
  - rewrite totalHits_insert_None by done. rewrite IH.
    destruct (decide (is_hit_or_sunk v)) as [Hv|Hv].
    + rewrite map_filter_insert_True by done.
      rewrite map_size_insert_None; [done|].
      by apply map_lookup_filter_None_2; left.
    + rewrite map_filter_insert_False by done.
      by rewrite delete_id.
Qed.


(** ** Hit, sunk and the Shot Record *)

(** C2: for an accepted fire that strikes a ship cell, the result is sunk
    exactly when the number of that ship's cells already recorded in the
    shooter's Shot Record, plus one, reaches the ship's cell count; a sunk
    records sunk at every cell of the ship and at no other coordinate, a
    non-final hit records hit at the fired cell and changes the record of
    no other coordinate. *)
Theorem fire_sunk_iff_last_cell (g : game) (slot : Slot) (r c : Z)
    (g' : game) (msg : shotResult) (shipCells : list cell) :
  fire_game g slot r c = fire_done g' msg →
  struck_ship (get_side g (opponent slot)) r c = Some shipCells →
  let shots := shotsFired (get_side g slot) in
  let shots' := shotsFired (get_side g' slot) in
  (sr_resultType msg = sunk ↔
     (length shipCells ≤ cells_with_outcome shots shipCells + 1)%nat) ∧
  (sr_resultType msg = sunk →
     sr_affectedCells msg = shipCells ∧
     (∀ x, x ∈ shipCells → shots' !! cell_key x = Some sunk) ∧
     (∀ x, x ∉ shipCells → shots' !! cell_key x = shots !! cell_key x) ∧
     (∀ k, k ∉ cell_key <$> shipCells → shots' !! k = shots !! k)) ∧
  (sr_resultType msg ≠ sunk →
     sr_resultType msg = hit ∧ sr_affectedCells msg = [(r, c)] ∧
     shots' !! key r c = Some hit ∧
     (∀ x, x ≠ (r, c) → shots' !! cell_key x = shots !! cell_key x) ∧
     shots' = <[key r c := hit]> shots).
Proof.
  intros H Hship shots shots'.
  destruct (fire_done_inv _ _ _ _ _ _ H)
    as (b & row & rt & cells & txt & _ & _ & _ & Hb & Hrow & Hcl & -> & ->).
  subst shots shots'.
  rewrite check_win_get_side, apply_shot_shotsFired.
  unfold shot_payload. cbn [sr_resultType sr_affectedCells].
  unfold struck_ship in Hship. rewrite Hb in Hship.
  destruct (ships (get_side g (opponent slot))) as [layout|] eqn:Hly; [|done].
  rewrite Hrow in Hship.
  destruct (decide (row_cell row c ≠ 0)) as [Hv|]; [|done].
  apply classify_inv in Hcl as [(? & _)|(_ & ly & sc & Hl & Hsc & Hcase)]; [done|].
  injection Hl as <-. rewrite Hship in Hsc. injection Hsc as <-.
  rewrite prevHits_counts in Hcase.
  destruct Hcase as [(Hle & -> & ->)|(Hnle & -> & ->)].
  - split; [done|]. split; [|done]. intros _. split; [done|].
    split; [|split].
    + intros x Hx. rewrite record_shots_lookup.
      rewrite decide_True; [done|]. by apply list_elem_of_fmap_2.
    + intros x Hx. rewrite record_shots_lookup.
      rewrite decide_False; [done|].
      intros (y & Hxy & Hy)%list_elem_of_fmap.
      by apply cell_key_inj in Hxy as ->.
    + intros k Hk. rewrite record_shots_lookup. by rewrite decide_False.
  - split; [split; [done | by intros ?]|]. split; [done|].
    intros _. rewrite record_shots_single.
    split; [done|]. split; [done|].
    split; [apply lookup_insert_eq|]. split; [|done].
    intros x Hx. rewrite lookup_insert_ne; [done|].
    intros Hk. destruct Hx. by apply (cell_key_inj (r, c) x) in Hk.
Qed.

(** Two hits on the three-cell ship, then the shot that sinks it. *)
Lemma fire_sunk_iff_last_cell_witness :
  let ship := [(0, 5); (0, 6); (0, 7)] in
  let g1 := game_after (opening ++ [fire "a" 0 5]) in
  let g2 := game_after (opening ++ [fire "a" 0 5; fire "a" 0 6]) in
  (∃ g' msg,
     fire_game g1 P1 0 6 = fire_done g' msg ∧
     struck_ship (get_side g1 P2) 0 6 = Some ship ∧
     cells_with_outcome (shotsFired (get_side g1 P1)) ship = 1%nat ∧
     sr_resultType msg = hit ∧
     shotsFired (get_side g' P1) !! key 0 6 = Some hit ∧
     shotsFired (get_side g' P1) !! key 0 5 = Some hit ∧
     shotsFired (get_side g' P1) !! key 0 7 = None) ∧
  (∃ g' msg,
     fire_game g2 P1 0 7 = fire_done g' msg ∧
     struck_ship (get_side g2 P2) 0 7 = Some ship ∧
     cells_with_outcome (shotsFired (get_side g2 P1)) ship = 2%nat ∧
     sr_resultType msg = sunk ∧
     shotsFired (get_side g2 P1) !! key 0 5 = Some hit ∧
     shotsFired (get_side g' P1) !! key 0 5 = Some sunk ∧
     shotsFired (get_side g' P1) !! key 0 6 = Some sunk ∧
     shotsFired (get_side g' P1) !! key 0 7 = Some sunk ∧
     shotsFired (get_side g' P1) !! key 0 0 = None).
Proof.
  intros ship g1 g2. split.
  - destruct (fire_game g1 P1 0 6) as [| | |g' msg] eqn:H;
      [vm_compute in H; discriminate..|].
    assert (Hs : struck_ship (get_side g1 (opponent P1)) 0 6 = Some ship)
      by (vm_compute; reflexivity).
    assert (Hn : cells_with_outcome (shotsFired (get_side g1 P1)) ship = 1%nat)
      by (vm_compute; reflexivity).
    destruct (fire_sunk_iff_last_cell g1 P1 0 6 g' msg ship H Hs)
      as (Hiff & _ & Hhit).
    assert (Hrt : sr_resultType msg ≠ sunk).
    { intros Hsunk. apply Hiff in Hsunk. rewrite Hn in Hsunk.
      cbn in Hsunk. lia. }
    destruct (Hhit Hrt) as (Hres & _ & Hk & Hothers & _).
    exists g', msg. split; [reflexivity|]. split; [exact Hs|].
    split; [exact Hn|]. split; [exact Hres|]. split; [exact Hk|].
    split.
    + change (key 0 5) with (cell_key (0, 5)).
      rewrite (Hothers (0, 5)) by discriminate. vm_compute. reflexivity.
    + change (key 0 7) with (cell_key (0, 7)).
      rewrite (Hothers (0, 7)) by discriminate. vm_compute. reflexivity.
  - destruct (fire_game g2 P1 0 7) as [| | |g' msg] eqn:H;
      [vm_compute in H; discriminate..|].
    assert (Hs : struck_ship (get_side g2 (opponent P1)) 0 7 = Some ship)
      by (vm_compute; reflexivity).
    assert (Hn : cells_with_outcome (shotsFired (get_side g2 P1)) ship = 2%nat)
      by (vm_compute; reflexivity).
    destruct (fire_sunk_iff_last_cell g2 P1 0 7 g' msg ship H Hs)
      as (Hiff & Hsunk & _).
    assert (Hrt : sr_resultType msg = sunk).
    { apply Hiff. rewrite Hn. cbn. lia. }
    destruct (Hsunk Hrt) as (_ & Hall & Hout & _).
    exists g', msg. split; [reflexivity|]. split; [exact Hs|].
    split; [exact Hn|]. split; [exact Hrt|].
    split; [vm_compute; reflexivity|].
    split; [apply (Hall (0, 5)); by left|].
    split; [apply (Hall (0, 6)); right; by left|].
    split; [apply (Hall (0, 7)); right; right; by left|].
    change (key 0 0) with (cell_key (0, 0)).
    rewrite (Hout (0, 0)); [vm_compute; reflexivity|].
    intros Hin. repeat (apply elem_of_cons in Hin as [Hin|Hin]; [discriminate|]).
    by apply elem_of_nil in Hin.
Defined.

(** ** The win check *)

(** C3: after an accepted fire the phase is finished and the winner is the
    firing side if and only if the number of entries of the firing side's
    Shot Record whose outcome is hit or sunk reaches totalCells = 20;
    below 20 the win check leaves phase and winner as they were. *)
Theorem fire_win_iff_twenty (g : game) (slot : Slot) (r c : Z)
    (g' : game) (msg : shotResult) :
  totalCells g = 20%nat →
  fire_game g slot r c = fire_done g' msg →
  let n := hit_or_sunk_count (shotsFired (get_side g' slot)) in
  ((phase g' = finished ∧ winner g' = Some slot) ↔ (20 ≤ n)%nat) ∧
  ((n < 20)%nat → phase g' = phase g ∧ winner g' = winner g) ∧
  sr_phase msg = phase g' ∧ sr_winner msg = winner g'.
Proof.
  intros Htot H.
  destruct (fire_done_inv _ _ _ _ _ _ H)
    as (b & row & rt & cells & txt & Hph & _ & _ & _ & _ & _ & -> & ->).
  cbn zeta. rewrite check_win_get_side, <-totalHits_counts.
  set (g1 := apply_shot g slot rt cells txt).
  destruct (check_win_spec g1 slot) as [Hwin Hno].
  assert (Ht1 : totalCells g1 = 20%nat)
    by (unfold g1; by rewrite apply_shot_totalCells).
  assert (Hp1 : phase g1 = battle)
    by (unfold g1; by rewrite apply_shot_phase).
  assert (Hw1 : winner g1 = winner g)
    by (unfold g1; by rewrite apply_shot_winner).
  rewrite Ht1 in Hwin, Hno.
  split; [|split; [|done]].
  - split.
    + intros [Hfin _].
      destruct (decide (20 ≤ totalHits (shotsFired (get_side g1 slot)))%nat)
        as [|Hlt]; [done|].
      destruct Hno as (Hphase & _); [lia|]. congruence.
    + apply Hwin.
  - intros Hlt. destruct (Hno Hlt) as (Hphase & Hwinner & _).
    rewrite Hphase, Hwinner, Hp1, Hw1, Hph. done.
Qed.

(** The nineteenth hit of a sweep leaves the match open, the twentieth
    wins it. *)
Lemma fire_win_iff_twenty_witness :
  let g18 := game_after (opening ++ take 18 sweep) in
  let g19 := game_after (opening ++ take 19 sweep) in
  (∃ g' msg,
     totalCells g18 = 20%nat ∧
     fire_game g18 P1 4 7 = fire_done g' msg ∧
     hit_or_sunk_count (shotsFired (get_side g' P1)) = 19%nat ∧
     phase g' = battle ∧ winner g' = None) ∧
  (∃ g' msg,
     totalCells g19 = 20%nat ∧
     fire_game g19 P1 4 9 = fire_done g' msg ∧
     hit_or_sunk_count (shotsFired (get_side g' P1)) = 20%nat ∧
     phase g' = finished ∧ winner g' = Some P1).
Proof.
  intros g18 g19. split.
  - destruct (fire_game g18 P1 4 7) as [| | |g' msg] eqn:H;
      [vm_compute in H; discriminate..|].
    assert (Ht : totalCells g18 = 20%nat) by (vm_compute; reflexivity).
    assert (Hn : hit_or_sunk_count (shotsFired (get_side g' P1)) = 19%nat).
    { vm_compute in H. injection H as <- _. vm_compute. reflexivity. }
    destruct (fire_win_iff_twenty g18 P1 4 7 g' msg Ht H) as (_ & Hbelow & _).
    destruct Hbelow as [Hph Hw]; [rewrite Hn; lia|].
    exists g', msg. split; [exact Ht|]. split; [reflexivity|].
    split; [exact Hn|]. rewrite Hph, Hw. split; vm_compute; reflexivity.
  - destruct (fire_game g19 P1 4 9) as [| | |g' msg] eqn:H;
      [vm_compute in H; discriminate..|].
    assert (Ht : totalCells g19 = 20%nat) by (vm_compute; reflexivity).
    assert (Hn : hit_or_sunk_count (shotsFired (get_side g' P1)) = 20%nat).
    { vm_compute in H. injection H as <- _. vm_compute. reflexivity. }
    destruct (fire_win_iff_twenty g19 P1 4 9 g' msg Ht H) as (Hiff & _).
    destruct (proj2 Hiff) as [Hph Hw]; [rewrite Hn; lia|].
    exists g', msg. split; [exact Ht|]. split; [reflexivity|].
    split; [exact Hn|]. split; [exact Hph | exact Hw].
Defined.

(** ** Records that agree with the board *)

(** X11: an accepted fire keeps the shooter's Shot Record in agreement
    with the opponent's board: if a miss was recorded at empty cells only
    before the shot, the same holds after it. *)
Lemma fire_preserves_record_agrees (g : game) (slot : Slot) (r c : Z)
    (g' : game) (msg : shotResult) :
  fire_game g slot r c = fire_done g' msg →
  record_agrees (shotsFired (get_side g slot)) (get_side g (opponent slot)) →
  record_agrees (shotsFired (get_side g' slot)) (get_side g' (opponent slot)).
Proof.
  intros H Hrec.
  destruct (fire_done_inv _ _ _ _ _ _ H)
    as (b & row & rt & cells & txt & _ & _ & Hk & Hb & Hrow & Hcl & -> & _).
  rewrite !check_win_get_side, apply_shot_shotsFired.
  assert (Hopp : get_side (apply_shot g slot rt cells txt) (opponent slot)
                 = get_side g (opponent slot)).
  { unfold apply_shot. destruct (decide (rt = miss)), slot; done. }
  rewrite Hopp. intros b' x Hb' Hx.
  rewrite Hb in Hb'. injection Hb' as <-.
  rewrite record_shots_lookup in Hx.
  destruct (decide (cell_key x ∈ cell_key <$> cells)) as [Hin|_];
    [|by apply (Hrec b x)].
  injection Hx as ->.
  apply classify_inv in Hcl
    as [(Hv & _ & ->)|(_ & _ & _ & _ & _ & [(_ & ? & _)|(_ & ? & _)])];
    [|done..].
  apply list_elem_of_fmap in Hin as (y & Hxy & Hy).
  apply list_elem_of_singleton in Hy as ->.
  apply cell_key_inj in Hxy as ->.
  unfold cell_value. cbn. by rewrite Hrow.
Qed.

(** X12: when the opponent's board and layout agree and the shooter's
    record agrees with that board, every accepted fire adds exactly one
    key, the fired coordinate, and the tally of hit or sunk entries rises
    by one on a hit or a sunk and stays on a miss. *)
Corollary one_key_per_fire_on_agreeing_boards (g : game) (slot : Slot)
    (r c : Z) (g' : game) (msg : shotResult) :
  layout_agrees (get_side g (opponent slot)) →
  record_agrees (shotsFired (get_side g slot)) (get_side g (opponent slot)) →
  fire_game g slot r c = fire_done g' msg →
  let shots := shotsFired (get_side g slot) in
  let shots' := shotsFired (get_side g' slot) in
  (key r c ∉ dom shots) ∧
  dom shots' = {[key r c]} ∪ dom shots ∧
  totalHits shots' =
    (if decide (sr_resultType msg = miss) then totalHits shots
     else S (totalHits shots)).
Proof.
  intros (b & ly & Hb & Hly & Hlisted & Hboard) Hrec H. cbn zeta.
  destruct (fire_record_grows _ _ _ _ _ _ H) as (Hfresh & _ & _).
  split; [done|].
  destruct (decide (sr_resultType msg = sunk)) as [Hrt|Hrt].
  - rewrite Hrt, decide_False by done.
    destruct (fire_done_inv _ _ _ _ _ _ H)
      as (b0 & row & rt & cells & txt & _ & _ & _ & Hb0 & Hrow & Hcl & _ & ->).
    rewrite Hb in Hb0. injection Hb0 as <-.
    unfold shot_payload in Hrt. cbn [sr_resultType] in Hrt. subst rt.
    apply classify_inv in Hcl
      as [(_ & ? & _)|(Hv & ly' & sc & Hl & Hsc & _)]; [done|].
    rewrite Hly in Hl. injection Hl as <-.
    assert (Hcv : cell_value b (r, c) = row_cell row c).
    { unfold cell_value. cbn. by rewrite Hrow. }
    destruct (Hboard (r, c)) as (cells' & Hcells' & Hin); [by rewrite Hcv|].
    rewrite Hcv, Hsc in Hcells'. injection Hcells' as <-.
    destruct (fire_sunk_record _ _ _ _ _ _ sc H eq_refl)
      as (Hdom & _ & _ & Htally); [|done| |done].
    + unfold struck_ship. rewrite Hb, Hly, Hrow.
      by rewrite decide_True.
    + intros x Hx Hmissed.
      destruct (Hlisted _ _ x Hsc Hx) as [Hval Hne].
      rewrite (Hrec b x Hb Hmissed) in Hval. congruence.
  - destruct (fire_single_record _ _ _ _ _ _ H Hrt) as [-> ->].
    by rewrite dom_insert_L.
Qed.

Lemma cell_value_lookup (b : Board) (x : cell) :
  cell_value b x ≠ 0 →
  ∃ i j row, x = (Z.of_nat i, Z.of_nat j) ∧ b !! i = Some row ∧
             row !! j = Some (cell_value b x).
Proof.
  destruct x as [r c]. unfold cell_value, board_row, row_cell. cbn.
  destruct (decide (0 ≤ r)) as [Hr|]; [|done].
  destruct (b !! Z.to_nat r) as [row|] eqn:Hrow; [|done].
  destruct (decide (0 ≤ c)) as [Hc|]; [|done].
  destruct (row !! Z.to_nat c) as [v|] eqn:Hv; [|done].
  intros _. exists (Z.to_nat r), (Z.to_nat c), row.
  rewrite !Z2Nat.id by done. done.
Qed.

(** The standard fleet is laid out as its board says. *)
Lemma fleet_side_agrees (sid name : string) : layout_agrees (fleet_side sid name).
Proof.
  exists fleet_board, fleet_ships. split; [done|]. split; [done|]. split.
  - intros id cells x Hid Hx.
    apply elem_of_list_to_map_2 in Hid.
    repeat (apply elem_of_cons in Hid as [Hid|Hid];
            [injection Hid as -> ->;
             repeat (apply elem_of_cons in Hx as [->|Hx]; [by vm_compute|]);
             by apply elem_of_nil in Hx|]).
    by apply elem_of_nil in Hid.
  - intros x Hx.
    destruct (cell_value_lookup _ _ Hx) as (i & j & row & -> & Hi & Hj).
    revert Hx Hj. generalize (cell_value fleet_board (Z.of_nat i, Z.of_nat j)).
    intros v Hv Hj.
    do 10 (destruct i as [|i];
      [injection Hi as <-;
       do 10 (destruct j as [|j];
         [injection Hj as <-;
          first [done
                | eexists; split; [by vm_compute|]; vm_compute; set_solver]|]);
       done|]).
    done.
Qed.

(** A board resubmitted during the battle agrees with its layout, and
    yet a miss recorded before the swap lies on one of its ship cells: the
    sunk that follows overwrites it and the tally rises by 2. *)
Lemma sunk_after_board_swap :
  let g := game_after board_swap in
  phase g = battle ∧ turn g = P1 ∧
  board (get_side g P2) = Some late_board ∧
  ships (get_side g P2) = Some late_ships ∧
  shotsFired (get_side g P1) !! key 1 1 = Some miss ∧
  match fire_game g P1 1 2 with
  | fire_done g' msg =>
    sr_resultType msg = sunk ∧
    hit_or_sunk_count (shotsFired (get_side g P1)) = 0%nat ∧
    hit_or_sunk_count (shotsFired (get_side g' P1)) = 2%nat
  | _ => False
  end.
Proof. vm_compute. repeat split; reflexivity. Qed.

(** The resubmitted board and layout agree. *)
Lemma late_side_agrees (sd : side) :
  board sd = Some late_board → ships sd = Some late_ships → layout_agrees sd.
Proof.
  intros Hb Hs. exists late_board, late_ships. repeat (split; [done|]). split.
  - intros id cells x Hid Hx. unfold late_ships in Hid.
    apply lookup_singleton_Some in Hid as [<- <-].
    repeat (apply elem_of_cons in Hx as [->|Hx]; [by vm_compute|]).
    by apply elem_of_nil in Hx.
  - intros x Hx.
    destruct (cell_value_lookup _ _ Hx) as (i & j & row & -> & Hi & Hj).
    revert Hx Hj. generalize (cell_value late_board (Z.of_nat i, Z.of_nat j)).
    intros v Hv Hj.
    do 2 (destruct i as [|i];
      [injection Hi as <-;
       do 3 (destruct j as [|j];
         [injection Hj as <-;
          first [done
                | eexists; split; [by vm_compute|]; vm_compute; set_solver]|]);
       done|]).
    done.
Qed.

(** ** The concrete match is a run of the server *)

Lemma run_reachable (es : list event) :
  ∀ st st', reachable st → run st es = Ok st' → reachable st'.
Proof.
  induction es as [|e es IH]; intros st st' Hst Hrun; cbn in Hrun.
  - by injection Hrun as <-.
  - destruct (step st e) as [[st1 out]|] eqn:Hstep; [|done].
    eapply IH; [|done]. by eapply reachable_step.
Qed.

Lemma opening_reaches_battle :
  reachable (after opening) ∧ games (after opening) !! "a_b" = Some battle_game.
Proof.
  split; [|vm_compute; reflexivity].
  apply (run_reachable opening init); [constructor|].
  unfold after. by destruct (run init opening) eqn:Hrun; [|vm_compute in Hrun].
Qed.

Example first_shot_on_the_fleet :
  ∃ g' msg,
    fire_game battle_game P1 0 0 = fire_done g' msg ∧
    sr_resultType msg = hit ∧
    dom (shotsFired (get_side g' P1)) = {[key 0 0]} ∧
    totalHits (shotsFired (get_side g' P1)) = 1%nat.
Proof.
  destruct (fire_game battle_game P1 0 0) as [| | |g' msg] eqn:H;
    [vm_compute in H; discriminate..|].
  exists g', msg. split; [done|].
  assert (Hr : sr_resultType msg = hit).
  { vm_compute in H. by injection H as <- <-. }
  split; [done|].
  destruct (one_key_per_fire_on_agreeing_boards battle_game P1 0 0 g' msg)
    as (_ & Hdom & Htally); [apply fleet_side_agrees|done|done|].
  rewrite Hdom, Htally, Hr. split; vm_compute; reflexivity.
Defined.

(** ** What each handler can do to a registered game *)

(** An accepted fire writes the shooter's Shot Record, the log, the turn,
    the phase and the winner, and nothing else of the game. *)
Lemma fire_done_frame (g : game) (slot : Slot) (r c : Z) (g' : game)
    (msg : shotResult) :
  fire_game g slot r c = fire_done g' msg →
  get_side g' (opponent slot) = get_side g (opponent slot) ∧
  get_side g' slot =
    set_shotsFired (get_side g slot) (shotsFired (get_side g' slot)) ∧
  game_id g' = game_id g ∧ totalCells g' = totalCells g.
Proof.
  intros H.
  destruct (fire_done_inv _ _ _ _ _ _ H)
    as (b & row & rt & cells & txt & _ & _ & _ & _ & _ & _ & -> & _).
  unfold check_win, apply_shot.
  destruct (decide (_ ≤ _)%nat), (decide (rt = miss)), slot; done.
Qed.

(** [player_ready] writes the submitter's board, layout and ready flag,
    and on a battle start the phase and the log. *)
Lemma ready_game_frame (g : game) (slot : Slot) (b : Board)
    (sh : gmap Z (list cell)) :
  let g' := (ready_game g slot b sh).1 in
  get_side g' (opponent slot) = get_side g (opponent slot) ∧
  get_side g' slot = submit_board (get_side g slot) b sh ∧
  game_id g' = game_id g ∧ totalCells g' = totalCells g ∧
  turn g' = turn g ∧ winner g' = winner g.
Proof.
  cbn zeta. unfold ready_game.
  destruct (ready _), slot; done.
Qed.

Lemma ready_game_log (g : game) (slot : Slot) (b : Board)
    (sh : gmap Z (list cell)) :
  log (ready_game g slot b sh).1 =
  if ready (get_side g (opponent slot))
  then log g ++ [{| type := system; text := "БОЙ НАЧАЛСЯ!" |}]
  else log g.
Proof.
  unfold ready_game. rewrite get_side_set_side_opponent.
  by destruct (ready (get_side g (opponent slot))), slot.
Qed.

(** The games of the registry after a step: each is untouched, or fresh
    from [createGame], or the result of one handler on the game that was
    registered under the same id. *)
Lemma step_games (st : server) (e : event) (st' : server) out
    (gid : string) (g' : game) :
  step st e = Ok (st', out) →
  games st' !! gid = Some g' →
  games st !! gid = Some g' ∨
  (∃ a b, gid = make_gameId a b ∧ g' = new_game a b) ∨
  (∃ g, games st !! gid = Some g ∧
     ((∃ slot b sh, g' = (ready_game g slot b sh).1) ∨
      (∃ slot r c msg, fire_game g slot r c = fire_done g' msg) ∨
      (phase g ≠ finished ∧ g' = set_phase g finished))).
Proof.
  intros Hstep Hg'.
  destruct e as [sid name|sid b sh|sid r c|sid|gid0]; cbn in Hstep.
  - injection Hstep as Hstep. unfold on_join_queue, createGame in Hstep.
    destruct (waitingPlayer (socket_set_name st sid name)) as [w|];
      [destruct (decide (pl_id w ≠ sid))|]; simplify_eq; eauto.
    cbn in Hg'. rewrite lookup_insert in Hg'.
    destruct (decide _) as [<-|]; [|eauto].
    injection Hg' as <-. right. left. by eexists _, _.
  - injection Hstep as Hstep. unfold on_player_ready in Hstep.
    destruct (binding (sock st sid)) as [[gid0 slot]|]; [|simplify_eq; eauto].
    destruct (games st !! gid0) as [g0|] eqn:Hg0; [|simplify_eq; eauto].
    destruct (ready_game g0 slot b sh) as [g1 started] eqn:Hr.
    simplify_eq. cbn in Hg'. rewrite lookup_insert in Hg'.
    destruct (decide (gid0 = gid)) as [->|]; [|eauto].
    injection Hg' as <-. right. right. exists g0. split; [done|].
    left. exists slot, b, sh. by rewrite Hr.
  - unfold on_fire in Hstep.
    destruct (binding (sock st sid)) as [[gid0 slot]|]; [|simplify_eq; eauto].
    destruct (games st !! gid0) as [g0|] eqn:Hg0; [|simplify_eq; eauto].
    destruct (fire_game g0 slot r c) as [| | |g1 msg] eqn:Hf;
      simplify_eq; eauto.
    cbn in Hg'. rewrite lookup_insert in Hg'.
    destruct (decide (gid0 = gid)) as [->|]; [|eauto].
    injection Hg' as <-. right. right. exists g0. split; [done|].
    right. left. by exists slot, r, c, msg.
  - injection Hstep as Hstep. unfold on_disconnect in Hstep.
    rewrite sock_leave_queue, leave_queue_games in Hstep.
    destruct (binding (sock st sid)) as [[gid0 slot]|];
      [|simplify_eq; rewrite leave_queue_games in Hg'; eauto].
    destruct (games st !! gid0) as [g0|] eqn:Hg0;
      [|simplify_eq; rewrite leave_queue_games in Hg'; eauto].
    destruct (decide (phase g0 ≠ finished)); simplify_eq; cbn in Hg';
      [|rewrite leave_queue_games in Hg'; eauto].
    rewrite lookup_insert in Hg'.
    destruct (decide (gid0 = gid)) as [->|]; [|eauto].
    injection Hg' as <-. right. right. exists g0. eauto.
  - simplify_eq. cbn in Hg'. rewrite lookup_delete in Hg'.
    destruct (decide (gid0 = gid)); [done | eauto].
Qed.

(** A property of registered games holds in every reachable state once
    it holds of a fresh game and is kept by the three handlers that
    write to a game. *)
Lemma reachable_game_invariant (P : string → game → Prop) :
  (∀ a b, P (make_gameId a b) (new_game a b)) →
  (∀ gid g slot b sh, P gid g → P gid (ready_game g slot b sh).1) →
  (∀ gid g slot r c g' msg,
     P gid g → fire_game g slot r c = fire_done g' msg → P gid g') →
  (∀ gid g, P gid g → phase g ≠ finished → P gid (set_phase g finished)) →
  ∀ st, reachable st → ∀ gid g, games st !! gid = Some g → P gid g.
Proof.
  intros Hnew Hready Hfire Hdisc st Hst.
  induction Hst as [|st e st' out _ IH Hstep]; intros gid g Hg; [done|].
  destruct (step_games _ _ _ _ _ _ Hstep Hg)
    as [?|[(a & b & -> & ->)|(g0 & Hg0 & [(slot & b & sh & ->)|
         [(slot & r & c & msg & Hf)|(Hph & ->)]])]]; eauto.
Qed.

(** ** Invariants of the registry *)

Lemma after_reachable (es : list event) : reachable (after es).
Proof.
  unfold after. destruct (run init es) as [st|] eqn:Hrun; [|constructor].
  by apply (run_reachable es init); [constructor|].
Qed.

Lemma reachable_threshold_ok_witness :
  reachable (after (opening ++ sweep)) ∧
  totalCells <$> games (after (opening ++ sweep)) !! "a_b" = Some 20%nat.
Proof.
  split; [apply after_reachable|].
  destruct (games (after (opening ++ sweep)) !! "a_b") as [g|] eqn:Hg;
    [|vm_compute in Hg; discriminate].
  cbn. f_equal.
  exact (reachable_threshold_ok _ (after_reachable _) "a_b" g Hg).
Defined.

(** X14: in every reachable state a registered game is stored under its
    own identifier, and that identifier is the first side's connection id,
    an underscore, and the second side's connection id. *)
Theorem registered_under_own_id (st : server) (gid : string) (g : game) :
  reachable st → games st !! gid = Some g →
  game_id g = gid ∧ gid = side_id (p1 g) +:+ "_" +:+ side_id (p2 g).
Proof.
  intros Hst. revert gid g.
  apply (reachable_game_invariant
           (λ gid g, game_id g = gid ∧
                     gid = side_id (p1 g) +:+ "_" +:+ side_id (p2 g)));
    [| | |done..].
  - done.
  - intros gid g slot b sh [Hid Hgid].
    destruct (ready_game_frame g slot b sh) as (Ho & Hs & Hi & _).
    split; [congruence|]. rewrite Hgid.
    destruct slot; cbn in Ho, Hs; by rewrite Ho, Hs.
  - intros gid g slot r c g' msg [Hid Hgid] Hf.
    destruct (fire_done_frame _ _ _ _ _ _ Hf) as (Ho & Hs & Hi & _).
    split; [congruence|]. rewrite Hgid.
    destruct slot; cbn in Ho, Hs; by rewrite Ho, Hs.
Qed.

Lemma registered_under_own_id_witness :
  ∃ g, reachable (after (opening ++ sweep)) ∧
       games (after (opening ++ sweep)) !! "a_b" = Some g ∧
       game_id g = "a_b" ∧ side_id (p1 g) = "a" ∧ side_id (p2 g) = "b".
Proof.
  destruct (games (after (opening ++ sweep)) !! "a_b") as [g|] eqn:Hg;
    [|vm_compute in Hg; discriminate].
  exists g. split; [apply after_reachable|]. split; [done|].
  destruct (registered_under_own_id _ _ _ (after_reachable _) Hg) as [Hid _].
  split; [done|].
  vm_compute in Hg. by injection Hg as <-.
Defined.

(** X15: in every reachable state a game still in placement has not been
    played: both Shot Records and the log are empty, there is no winner
    and the turn is the first side's. *)
Theorem placement_game_is_unplayed (st : server) (gid : string) (g : game) :
  reachable st → games st !! gid = Some g → phase g = placement →
  shotsFired (p1 g) = ∅ ∧ shotsFired (p2 g) = ∅ ∧ log g = [] ∧
  winner g = None ∧ turn g = P1.
Proof.
  intros Hst. revert gid g.
  apply (reachable_game_invariant
           (λ _ g, phase g = placement →
                   shotsFired (p1 g) = ∅ ∧ shotsFired (p2 g) = ∅ ∧
                   log g = [] ∧ winner g = None ∧ turn g = P1));
    [| | | |done].
  - done.
  - intros _ g slot b sh IH Hph.
    rewrite ready_game_phase in Hph.
    pose proof (ready_game_log g slot b sh) as Hlog.
    destruct (ready (get_side g (opponent slot))); [done|].
    destruct (IH Hph) as (H1 & H2 & H3 & H4 & H5).
    destruct (ready_game_frame g slot b sh) as (Ho & Hs & _ & _ & Ht & Hw).
    rewrite Hlog, Ht, Hw.
    destruct slot; cbn in Ho, Hs; rewrite Ho, Hs; done.
  - intros _ g slot r c g' msg _ Hf Hph.
    destruct (fire_done_phase _ _ _ _ _ _ Hf) as [_ [?|?]]; congruence.
  - done.
Qed.

Lemma placement_game_is_unplayed_witness :
  ∃ g, reachable (after (take 3 opening)) ∧
       games (after (take 3 opening)) !! "a_b" = Some g ∧
       phase g = placement ∧ ready (p1 g) = true ∧ log g = [].
Proof.
  destruct (games (after (take 3 opening)) !! "a_b") as [g|] eqn:Hg;
    [|vm_compute in Hg; discriminate].
  assert (Hf : phase g = placement ∧ ready (p1 g) = true).
  { vm_compute in Hg. by injection Hg as <-. }
  destruct Hf as [Hph Hr].
  exists g. split; [apply after_reachable|]. repeat (split; [done|]).
  by destruct (placement_game_is_unplayed _ _ _ (after_reachable _) Hg Hph)
    as (_ & _ & Hlog & _).
Defined.

(** In every reachable state a side that is ready has a board and a
    ship layout, and in phase battle both sides are ready. *)
Lemma ready_sides_invariant (st : server) (gid : string) (g : game) :
  reachable st → games st !! gid = Some g →
  (∀ s, ready (get_side g s) = true →
     is_Some (board (get_side g s)) ∧ is_Some (ships (get_side g s))) ∧
  (phase g = battle → ∀ s, ready (get_side g s) = true).
Proof.
  intros Hst. revert gid g.
  apply (reachable_game_invariant
           (λ _ g,
              (∀ s, ready (get_side g s) = true →
                 is_Some (board (get_side g s)) ∧
                 is_Some (ships (get_side g s))) ∧
              (phase g = battle → ∀ s, ready (get_side g s) = true)));
    [| | | |done].
  - intros a b. split; [by intros [] | done].
  - intros _ g slot b sh [IHb IHp].
    destruct (ready_game_frame g slot b sh) as (Ho & Hs & _).
    assert (Hside : ∀ s,
      get_side (ready_game g slot b sh).1 s =
      if decide (s = slot) then submit_board (get_side g slot) b sh
      else get_side g s).
    { intros s. destruct (decide (s = slot)) as [->|Hne]; [done|].
      destruct s, slot; done. }
    split.
    + intros s. rewrite Hside.
      destruct (decide (s = slot)); [cbn; eauto | apply IHb].
    + rewrite ready_game_phase. intros Hph s. rewrite Hside.
      destruct (decide (s = slot)) as [|Hne]; [done|].
      destruct (ready (get_side g (opponent slot))) eqn:Hopp.
      * destruct s, slot; done.
      * by apply IHp.
  - intros _ g slot r c g' msg [IHb IHp] Hf.
    destruct (fire_done_frame _ _ _ _ _ _ Hf) as (Ho & Hs & _).
    destruct (fire_done_phase _ _ _ _ _ _ Hf) as [Hph _].
    assert (Hside : ∀ s, ready (get_side g' s) = ready (get_side g s) ∧
                         board (get_side g' s) = board (get_side g s) ∧
                         ships (get_side g' s) = ships (get_side g s)).
    { intros s. destruct (decide (s = slot)) as [->|Hne].
      - by rewrite Hs.
      - replace s with (opponent slot) by (by destruct s, slot).
        by rewrite Ho. }
    split.
    + intros s. destruct (Hside s) as (-> & -> & ->). apply IHb.
    + intros _ s. destruct (Hside s) as (-> & _). by apply IHp.
  - intros _ g [IHb _] _. split; [exact IHb | done].
Qed.

(** X16: in every reachable state both sides of a game in battle are
    ready and each has a board and a ship layout, a player_ready request
    carrying both: a fire in battle never finds the opponent's board or
    layout missing. *)
Theorem battle_sides_are_ready (st : server) (gid : string) (g : game)
    (s : Slot) :
  reachable st → games st !! gid = Some g → phase g = battle →
  ready (get_side g s) = true ∧
  ∃ b ly, board (get_side g s) = Some b ∧ ships (get_side g s) = Some ly.
Proof.
  intros Hst Hg Hph.
  destruct (ready_sides_invariant st gid g Hst Hg) as [Hb Hr].
  split; [by apply Hr|].
  destruct (Hb s (Hr Hph s)) as [[b ?] [ly ?]]. by exists b, ly.
Qed.

Lemma battle_sides_are_ready_witness :
  ∃ g, reachable (after opening) ∧ games (after opening) !! "a_b" = Some g ∧
       phase g = battle ∧ ready (get_side g P2) = true.
Proof.
  destruct (games (after opening) !! "a_b") as [g|] eqn:Hg;
    [|vm_compute in Hg; discriminate].
  assert (Hph : phase g = battle).
  { vm_compute in Hg. by injection Hg as <-. }
  exists g. split; [apply after_reachable|]. repeat (split; [done|]).
  by destruct (battle_sides_are_ready _ _ _ P2 (after_reachable _) Hg Hph).
Defined.

(** The win check either names the shooter, whose tally has reached
    the threshold, or leaves the winner as it was. *)
Lemma fire_done_winner (g : game) (slot : Slot) (r c : Z) (g' : game)
    (msg : shotResult) :
  fire_game g slot r c = fire_done g' msg →
  (winner g' = Some slot ∧
   (totalCells g ≤ totalHits (shotsFired (get_side g' slot)))%nat) ∨
  winner g' = winner g.
Proof.
  intros Hf.
  destruct (fire_done_inv _ _ _ _ _ _ Hf)
    as (b & row & rt & cells & txt & _ & _ & _ & _ & _ & _ & -> & _).
  rewrite check_win_get_side.
  set (g1 := apply_shot g slot rt cells txt).
  destruct (check_win_spec g1 slot) as [Hwin Hno].
  assert (Ht1 : totalCells g1 = totalCells g)
    by apply apply_shot_totalCells.
  assert (Hw1 : winner g1 = winner g) by apply apply_shot_winner.
  destruct (decide (totalCells g1 ≤ totalHits (shotsFired (get_side g1 slot)))%nat)
    as [Hle|Hlt].
  - left. destruct (Hwin Hle) as [_ Hw]. split; [done | lia].
  - right. destruct Hno as (_ & Hw & _); [lia | congruence].
Qed.

(** X17: in every reachable state a declared winner has at least 20 hit
    or sunk entries in its Shot Record, and the game has left placement. *)
Theorem winner_has_twenty_hits (st : server) (gid : string) (g : game)
    (s : Slot) :
  reachable st → games st !! gid = Some g → winner g = Some s →
  (20 ≤ totalHits (shotsFired (get_side g s)))%nat ∧ phase g ≠ placement.
Proof.
  intros Hst Hg. revert s.
  cut (totalCells g = 20%nat ∧
       ∀ s, winner g = Some s →
         (20 ≤ totalHits (shotsFired (get_side g s)))%nat ∧
         phase g ≠ placement); [by intros [_ ?]|].
  revert gid g Hg.
  apply (reachable_game_invariant
           (λ _ g, totalCells g = 20%nat ∧
              ∀ s, winner g = Some s →
                (20 ≤ totalHits (shotsFired (get_side g s)))%nat ∧
                phase g ≠ placement)); [| | | |done].
  - done.
  - intros _ g slot b sh [Ht IH].
    destruct (ready_game_frame g slot b sh) as (Ho & Hs & _ & Htot & _ & Hw).
    split; [congruence|]. intros s. rewrite Hw. intros Hwin.
    destruct (IH s Hwin) as [Hhits Hph]. split.
    + destruct (decide (s = slot)) as [->|Hne]; [by rewrite Hs|].
      replace s with (opponent slot) by (by destruct s, slot).
      rewrite Ho. by replace (opponent slot) with s by (by destruct s, slot).
    + rewrite ready_game_phase. by destruct (ready _).
  - intros _ g slot r c g' msg [Ht IH] Hf.
    destruct (fire_done_frame _ _ _ _ _ _ Hf) as (Ho & _ & _ & Htot).
    split; [congruence|]. intros s Hwin.
    destruct (fire_done_phase _ _ _ _ _ _ Hf) as [Hb Hph'].
    split; [|destruct Hph' as [-> | ->]; done].
    destruct (fire_record_grows _ _ _ _ _ _ Hf) as (_ & _ & Hgrow).
    destruct (fire_done_winner _ _ _ _ _ _ Hf) as [[Hw Hle]|Hsame].
    + rewrite Hw in Hwin. injection Hwin as <-. lia.
    + rewrite Hsame in Hwin. destruct (IH s Hwin) as [Hhits _].
      destruct (decide (s = slot)) as [->|Hne]; [lia|].
      replace s with (opponent slot) by (by destruct s, slot).
      rewrite Ho. by replace (opponent slot) with s by (by destruct s, slot).
  - intros _ g [Ht IH] _. split; [done|]. intros s Hwin.
    destruct (IH s Hwin). done.
Qed.

Lemma winner_has_twenty_hits_witness :
  ∃ g, reachable (after (opening ++ sweep)) ∧
       games (after (opening ++ sweep)) !! "a_b" = Some g ∧
       winner g = Some P1 ∧
       (20 ≤ totalHits (shotsFired (get_side g P1)))%nat.
Proof.
  destruct (games (after (opening ++ sweep)) !! "a_b") as [g|] eqn:Hg;
    [|vm_compute in Hg; discriminate].
  assert (Hw : winner g = Some P1).
  { vm_compute in Hg. by injection Hg as <-. }
  exists g. split; [apply after_reachable|]. repeat (split; [done|]).
  by destruct (winner_has_twenty_hits _ _ _ _ (after_reachable _) Hg Hw).
Defined.

(** ** When a fire is accepted and when it raises *)

Lemma board_row_Some (b : Board) (r : Z) (row : list Z) :
  board_row b r = Some row ↔ 0 ≤ r ∧ b !! Z.to_nat r = Some row.
Proof.
  unfold board_row. destruct (decide (0 ≤ r)); [tauto|].
  split; [done | by intros []].
Qed.

Lemma classify_Ok_iff shots layout name (r c v : Z) :
  (∃ res, classify shots layout name r c v = Ok res) ↔
  (v = 0 ∨ ∃ ly cells, layout = Some ly ∧ ly !! v = Some cells).
Proof.
  unfold classify. destruct (decide (v ≠ 0)) as [Hv|Hv].
  - destruct layout as [ly|].
    + destruct (ly !! v) as [cells|] eqn:Hly.
      * split; [intros _; right; by exists ly, cells|].
        intros _. destruct (decide (_ ≤ _)%nat); by eexists.
      * split; [by intros [? ?]|].
        intros [?|(ly' & cells & [= <-] & ?)]; [done | congruence].
    + split; [by intros [? ?]|].
      intros [?|(ly' & cells & ? & ?)]; done.
  - split; [intros _; left; by destruct (decide (v = 0)) | by eexists].
Qed.

Lemma fire_done_resolvable (g : game) (slot : Slot) (r c : Z) (g' : game)
    (msg : shotResult) :
  fire_game g slot r c = fire_done g' msg →
  resolvable (get_side g (opponent slot)) r c.
Proof.
  intros H.
  destruct (fire_done_inv _ _ _ _ _ _ H)
    as (b & row & rt & cells & txt & _ & _ & _ & Hb & Hrow & Hcl & _).
  apply board_row_Some in Hrow as [Hr Hrow].
  exists b, row. repeat (split; [done|]).
  eapply classify_Ok_iff. by eexists.
Qed.

(** X2: a fire is accepted exactly when the game is in battle, it is the
    caller's turn, the coordinate has not been fired at, and the reads
    succeed: the opponent's board has a row [r], and the value at [(r, c)]
    is empty or the id of a ship listed in the opponent's layout. *)
Theorem fire_accepted_iff (g : game) (slot : Slot) (r c : Z) :
  (∃ g' msg, fire_game g slot r c = fire_done g' msg) ↔
  phase g = battle ∧ turn g = slot ∧
  shotsFired (get_side g slot) !! key r c = None ∧
  resolvable (get_side g (opponent slot)) r c.
Proof.
  split.
  - intros (g' & msg & H).
    destruct (fire_done_inv _ _ _ _ _ _ H)
      as (_ & _ & _ & _ & _ & Hph & Ht & Hk & _).
    repeat (split; [done|]). by eapply fire_done_resolvable.
  - intros (Hph & Ht & Hk & b & row & Hb & Hr & Hrow & Hres).
    eapply classify_Ok_iff in Hres as [[[rt cells] txt] Hcl].
    eexists _, _. eapply fire_done_intro; [done..| |exact Hcl].
    by apply board_row_Some.
Qed.

Lemma fire_throw_inv (g : game) (slot : Slot) (r c : Z) :
  fire_game g slot r c = fire_throw →
  phase g = battle ∧ turn g = slot ∧
  shotsFired (get_side g slot) !! key r c = None ∧
  ¬ resolvable (get_side g (opponent slot)) r c.
Proof.
  intros H. unfold fire_game in H.
  destruct (decide (phase g ≠ battle)) as [|Hph]; [done|].
  destruct (decide (turn g ≠ slot)) as [|Ht]; [done|].
  destruct (decide (is_Some _)) as [|Hk]; [done|].
  split; [by destruct (decide (phase g = battle))|].
  split; [by destruct (decide (turn g = slot))|].
  split; [by apply eq_None_not_Some|].
  intros (b & row & Hb & Hr & Hrow & Hres).
  rewrite Hb in H. rewrite (proj2 (board_row_Some b r row)) in H by done.
  eapply classify_Ok_iff in Hres as [[[rt cells] txt] Hcl].
  by rewrite Hcl in H.
Qed.

(** X3: a fire raises a TypeError exactly when it passes the guards
    (battle, the caller's turn, an unfired coordinate) and a read fails:
    the opponent has no board, or no row [r], or the value at [(r, c)] is
    a ship id that the opponent's layout does not list. *)
Theorem fire_raises_iff (g : game) (slot : Slot) (r c : Z) :
  fire_game g slot r c = fire_throw ↔
  phase g = battle ∧ turn g = slot ∧
  shotsFired (get_side g slot) !! key r c = None ∧
  ¬ resolvable (get_side g (opponent slot)) r c.
Proof.
  split; [apply fire_throw_inv|].
  intros (Hph & Ht & Hk & Hno).
  destruct (fire_game g slot r c) as [| | |g' msg] eqn:H; [..|done|].
  - exfalso. unfold fire_game in H.
    rewrite decide_False in H by (by rewrite Hph; intros []).
    rewrite decide_False in H by (by rewrite Ht; intros []).
    rewrite decide_False in H by (rewrite Hk; by intros []).
    destruct (board _); [|done]. destruct (board_row _ _); [|done].
    by destruct (classify _ _ _ _ _ _) as [[[? ?] ?]|].
  - exfalso. unfold fire_game in H.
    rewrite decide_False in H by (by rewrite Hph; intros []).
    rewrite decide_False in H by (by rewrite Ht; intros []).
    rewrite decide_False in H by (rewrite Hk; by intros []).
    destruct (board _); [|done]. destruct (board_row _ _); [|done].
    by destruct (classify _ _ _ _ _ _) as [[[? ?] ?]|].
  - destruct Hno. by eapply fire_done_resolvable.
Qed.

(** X4: in a reachable state, player_ready requests carrying a board
    and a layout, a fire raises a TypeError only for bad coordinates or a
    bad layout: the row index lies outside the opponent's board, or the
    board value at the coordinate is a ship id missing from the
    opponent's layout. *)
Theorem fire_raises_only_on_bad_input (st : server) (gid : string)
    (g : game) (slot : Slot) (r c : Z) :
  reachable st → games st !! gid = Some g →
  fire_game g slot r c = fire_throw →
  ∃ b ly,
    board (get_side g (opponent slot)) = Some b ∧
    ships (get_side g (opponent slot)) = Some ly ∧
    ((r < 0 ∨ Z.of_nat (length b) ≤ r) ∨
     ∃ row, board_row b r = Some row ∧ row_cell row c ≠ 0 ∧
            ly !! row_cell row c = None).
Proof.
  intros Hst Hg Hf.
  destruct (fire_throw_inv _ _ _ _ Hf) as (Hph & _ & _ & Hno).
  destruct (ready_sides_invariant st gid g Hst Hg) as [Hb Hr].
  destruct (Hb _ (Hr Hph (opponent slot))) as [[b Hboard] [ly Hly]].
  exists b, ly. repeat (split; [done|]).
  destruct (board_row b r) as [row|] eqn:Hrow.
  - right. exists row. split; [done|].
    apply board_row_Some in Hrow as [Hr0 Hrow].
    destruct (decide (row_cell row c = 0)) as [Hv|Hv].
    { destruct Hno. exists b, row. repeat (split; [done|]). by left. }
    split; [done|].
    destruct (ly !! row_cell row c) as [cells|] eqn:Hcells; [|done].
    destruct Hno. exists b, row. repeat (split; [done|]).
    right. by exists ly, cells.
  - left. unfold board_row in Hrow.
    destruct (decide (0 ≤ r)); [|lia].
    apply lookup_ge_None in Hrow. lia.
Qed.

Lemma fire_raises_only_on_bad_input_witness :
  reachable (after opening) ∧
  games (after opening) !! "a_b" = Some battle_game ∧
  fire_game battle_game P1 10 0 = fire_throw ∧
  is_Some (board (get_side battle_game P2)).
Proof.
  assert (Hg : games (after opening) !! "a_b" = Some battle_game)
    by (vm_compute; reflexivity).
  assert (Hf : fire_game battle_game P1 10 0 = fire_throw)
    by (vm_compute; reflexivity).
  split; [apply after_reachable|]. split; [exact Hg|]. split; [exact Hf|].
  destruct (fire_raises_only_on_bad_input _ _ _ _ _ _ (after_reachable _) Hg Hf)
    as (b & ly & Hb & _).
  by exists b.
Defined.

(** X5: a column index outside the row that was read is no error: the
    value there is undefined, the shot is accepted as a miss at that
    coordinate, and the turn passes. *)
Theorem fire_column_outside_is_miss (g : game) (slot : Slot) (r c : Z)
    (b : Board) (row : list Z) :
  phase g = battle → turn g = slot →
  shotsFired (get_side g slot) !! key r c = None →
  board (get_side g (opponent slot)) = Some b →
  board_row b r = Some row →
  c < 0 ∨ Z.of_nat (length row) ≤ c →
  ∃ g' msg,
    fire_game g slot r c = fire_done g' msg ∧
    sr_resultType msg = miss ∧ sr_affectedCells msg = [(r, c)] ∧
    shotsFired (get_side g' slot) =
      <[key r c := miss]> (shotsFired (get_side g slot)) ∧
    turn g' = opponent slot.
Proof.
  intros Hph Ht Hk Hb Hrow Hc.
  assert (Hv : row_cell row c = 0).
  { unfold row_cell. destruct (decide (0 ≤ c)); [|done].
    rewrite lookup_ge_None_2; [done | lia]. }
  assert (Hcl : ∃ txt,
    classify (shotsFired (get_side g slot))
      (ships (get_side g (opponent slot))) (side_name (get_side g slot))
      r c (row_cell row c) = Ok (miss, [(r, c)], txt)).
  { unfold classify. rewrite decide_False by (by rewrite Hv; intros []).
    by eexists. }
  destruct Hcl as [txt Hcl].
  eexists _, _. split.
  { by eapply fire_done_intro. }
  cbn [shot_payload sr_resultType sr_affectedCells].
  rewrite check_win_get_side, check_win_turn, apply_shot_shotsFired,
    apply_shot_turn.
  done.
Qed.

Lemma fire_column_outside_is_miss_witness :
  ∃ g' msg,
    fire_game battle_game P1 0 10 = fire_done g' msg ∧
    sr_resultType msg = miss ∧ turn g' = P2.
Proof.
  destruct (fire_column_outside_is_miss battle_game P1 0 10 fleet_board
              [1; 1; 1; 1; 0; 2; 2; 2; 0; 0])
    as (g' & msg & H & Hrt & _ & _ & Ht);
    [reflexivity | reflexivity | apply lookup_empty | reflexivity
    | reflexivity | right; cbn; lia |].
  exists g', msg. split; [exact H|]. split; [exact Hrt | exact Ht].
Defined.

(** ** What a fire leaves alone *)

(** X6: a fire that returns normally leaves the Waiting Slot, the socket
    properties and the timers as they were, registers and removes no
    game, changes no game other than the one bound to the caller's
    socket, and in that game leaves both boards, layouts, ready flags,
    names and ids, the game id and the threshold untouched. *)
Theorem fire_touches_one_game (st : server) (sid : string) (r c : Z)
    (st' : server) (out : list emission) :
  on_fire st sid r c = Ok (st', out) →
  waitingPlayer st' = waitingPlayer st ∧ sockets st' = sockets st ∧
  timers st' = timers st ∧ dom (games st') = dom (games st) ∧
  (∀ gid, (∀ slot, binding (sock st sid) ≠ Some (gid, slot)) →
     games st' !! gid = games st !! gid) ∧
  (∀ gid g g', games st !! gid = Some g → games st' !! gid = Some g' →
     game_id g' = game_id g ∧ totalCells g' = totalCells g ∧
     ∀ s, side_id (get_side g' s) = side_id (get_side g s) ∧
          side_name (get_side g' s) = side_name (get_side g s) ∧
          board (get_side g' s) = board (get_side g s) ∧
          ships (get_side g' s) = ships (get_side g s) ∧
          ready (get_side g' s) = ready (get_side g s)).
Proof.
  unfold on_fire. intros H.
  assert (Hsame : ∀ gid g g',
    games st !! gid = Some g → games st !! gid = Some g' →
    game_id g' = game_id g ∧ totalCells g' = totalCells g ∧
    ∀ s, side_id (get_side g' s) = side_id (get_side g s) ∧
         side_name (get_side g' s) = side_name (get_side g s) ∧
         board (get_side g' s) = board (get_side g s) ∧
         ships (get_side g' s) = ships (get_side g s) ∧
         ready (get_side g' s) = ready (get_side g s)).
  { intros gid g g' Hg Hg'. rewrite Hg in Hg'. by injection Hg' as <-. }
  assert (Hnone : waitingPlayer st = waitingPlayer st ∧
                  sockets st = sockets st ∧ timers st = timers st ∧
                  dom (games st) = dom (games st) ∧
                  (∀ gid, (∀ slot, binding (sock st sid) ≠ Some (gid, slot)) →
                     games st !! gid = games st !! gid))
    by (repeat split; reflexivity).
  destruct (binding (sock st sid)) as [[gid0 slot]|];
    [|injection H as <- <-; tauto].
  destruct (games st !! gid0) as [g0|] eqn:Hg0;
    [|injection H as <- <-; tauto].
  destruct (fire_game g0 slot r c) as [| | |g1 msg] eqn:Hf;
    [injection H as <- <-; tauto | injection H as <- <-; tauto
    |discriminate|].
  injection H as <- <-. clear Hnone.
  cbn. do 3 (split; [reflexivity|]). split; [|split].
  - apply dom_insert_lookup_L. by eexists.
  - intros gid Hne. rewrite lookup_insert_ne; [done|].
    intros ->. by destruct (Hne slot).
  - intros gid g g' Hg. rewrite lookup_insert.
    destruct (decide (gid0 = gid)) as [->|]; [|by apply Hsame].
    intros [= <-]. rewrite Hg0 in Hg. injection Hg as <-.
    destruct (fire_done_frame _ _ _ _ _ _ Hf) as (Ho & Hs & Hid & Htot).
    repeat (split; [done|]). intros s.
    destruct (decide (s = slot)) as [->|Hne].
    + rewrite Hs. by destruct (get_side g0 slot).
    + replace s with (opponent slot) by (by destruct s, slot). by rewrite Ho.
Qed.

Lemma fire_touches_one_game_witness :
  match on_fire (after opening) "a" 0 0 with
  | Ok (st', _) =>
    timers st' = timers (after opening) ∧
    dom (games st') = dom (games (after opening))
  | TypeError => False
  end.
Proof.
  destruct (on_fire (after opening) "a" 0 0) as [[st' out]|] eqn:H;
    [|vm_compute in H; discriminate].
  destruct (fire_touches_one_game _ _ _ _ _ _ H) as (_ & _ & Ht & Hd & _).
  by split.
Defined.

(** X7: the record of every coordinate that is not among the affected
    cells of an accepted fire is left as it was. *)
Theorem fire_leaves_other_cells (g : game) (slot : Slot) (r c : Z)
    (g' : game) (msg : shotResult) (x : cell) :
  fire_game g slot r c = fire_done g' msg →
  x ∉ sr_affectedCells msg →
  shotsFired (get_side g' slot) !! cell_key x =
  shotsFired (get_side g slot) !! cell_key x.
Proof.
  intros H Hx.
  destruct (fire_done_inv _ _ _ _ _ _ H)
    as (b & row & rt & cells & txt & _ & _ & _ & _ & _ & _ & -> & ->).
  rewrite check_win_get_side, apply_shot_shotsFired, record_shots_lookup.
  cbn [shot_payload sr_affectedCells] in Hx.
  rewrite decide_False; [done|].
  intros (y & Hxy & Hy)%list_elem_of_fmap.
  apply cell_key_inj in Hxy as ->. done.
Qed.

Lemma fire_leaves_other_cells_witness :
  ∃ g' msg,
    fire_game (default battle_game (games (after (opening ++ [fire "a" 0 0])) !! "a_b"))
      P1 0 1 = fire_done g' msg ∧
    shotsFired (get_side g' P1) !! cell_key (0, 0) = Some hit.
Proof.
  set (g := default battle_game
              (games (after (opening ++ [fire "a" 0 0])) !! "a_b")).
  destruct (fire_game g P1 0 1) as [| | |g' msg] eqn:H;
    [vm_compute in H; discriminate..|].
  exists g', msg. split; [done|].
  rewrite (fire_leaves_other_cells g P1 0 1 g' msg (0, 0) H).
  - vm_compute. reflexivity.
  - assert (Ha : sr_affectedCells msg = [(0, 1)]).
    { vm_compute in H. by injection H as <- <-. }
    rewrite Ha. intros Hin. apply list_elem_of_singleton in Hin. discriminate.
Defined.

(** X8: a shot that was accepted and recorded at its own coordinate is
    not accepted a second time: the same request from the same side is
    dropped, or answered with not_your_turn after a miss. *)
Theorem accepted_shot_is_not_repeated (g : game) (slot : Slot) (r c : Z)
    (g' : game) (msg : shotResult) :
  fire_game g slot r c = fire_done g' msg →
  (r, c) ∈ sr_affectedCells msg →
  (fire_game g' slot r c = fire_return ∨
   fire_game g' slot r c = fire_not_your_turn) ∧
  (sr_resultType msg ≠ miss → fire_game g' slot r c = fire_return).
Proof.
  intros H Hin.
  assert (Hrec : is_Some (shotsFired (get_side g' slot) !! key r c)).
  { destruct (fire_done_inv _ _ _ _ _ _ H)
      as (b & row & rt & cells & txt & _ & _ & _ & _ & _ & _ & -> & ->).
    rewrite check_win_get_side, apply_shot_shotsFired, record_shots_lookup.
    cbn [shot_payload sr_affectedCells] in Hin.
    rewrite decide_True; [by eexists|].
    by apply (list_elem_of_fmap_2 cell_key) in Hin. }
  assert (Hturn : sr_resultType msg ≠ miss → turn g' = slot).
  { destruct (fire_done_inv _ _ _ _ _ _ H)
      as (b & row & rt & cells & txt & _ & Ht & _ & _ & _ & _ & -> & ->).
    cbn [shot_payload sr_resultType]. intros Hrt.
    rewrite check_win_turn, apply_shot_turn. by rewrite decide_False. }
  unfold fire_game.
  destruct (decide (phase g' ≠ battle)); [by split; [left|]|].
  destruct (decide (turn g' ≠ slot)) as [Hne|_].
  - split; [by right|]. intros Hrt. by destruct Hne; apply Hturn.
  - rewrite decide_True by done. by split; [left|].
Qed.

Lemma accepted_shot_is_not_repeated_witness :
  ∃ g' msg,
    fire_game battle_game P1 1 1 = fire_done g' msg ∧
    fire_game g' P1 1 1 = fire_not_your_turn.
Proof.
  destruct (fire_game battle_game P1 1 1) as [| | |g' msg] eqn:H;
    [vm_compute in H; discriminate..|].
  exists g', msg. split; [done|].
  assert (Ha : sr_affectedCells msg = [(1, 1)] ∧ turn g' = P2 ∧ phase g' = battle).
  { vm_compute in H. by injection H as <- <-. }
  destruct Ha as (Ha & Ht & Hph).
  destruct (accepted_shot_is_not_repeated _ _ _ _ _ _ H) as [[Hr|Hn] _];
    [rewrite Ha; by left | | done].
  exfalso. unfold fire_game in Hr. rewrite Hph, Ht in Hr.
  by rewrite decide_False, decide_True in Hr by (by intros []).
Defined.

(** ** The log after a shot, and the log that is broadcast *)

Lemma slice_last_suffix {A} (n : nat) (l : list A) : slice_last n l `suffix_of` l.
Proof. apply suffix_drop. Qed.

Lemma slice_last_length {A} (n : nat) (l : list A) :
  length (slice_last n l) = (n `min` length l)%nat.
Proof. unfold slice_last. rewrite length_drop. lia. Qed.

Lemma suffix_last {A} (l1 l2 : list A) :
  l1 `suffix_of` l2 → l1 ≠ [] → last l1 = last l2.
Proof.
  intros [k ->] Hne. rewrite last_app.
  destruct (last l1) eqn:Hl; [done|].
  by apply last_None in Hl.
Qed.

Lemma apply_shot_log_last g slot rt cells txt :
  ∃ older, log (apply_shot g slot rt cells txt)
           = older ++ [{| type := shot rt; text := txt |}].
Proof.
  rewrite apply_shot_log. unfold push_capped, slice_last.
  destruct (decide (50 < _)%nat) as [Hgt|]; [|by eexists].
  rewrite length_app in *. cbn [length] in *.
  rewrite drop_app_le by lia. by eexists.
Qed.

Lemma fire_done_log_nonempty (g : game) (slot : Slot) (r c : Z)
    (g' : game) (msg : shotResult) :
  fire_game g slot r c = fire_done g' msg → log g' ≠ [].
Proof.
  intros H.
  destruct (fire_done_inv _ _ _ _ _ _ H)
    as (b & row & rt & cells & txt & _ & _ & _ & _ & _ & _ & -> & _).
  destruct (apply_shot_log_last g slot rt cells txt) as [older Holder].
  unfold check_win. destruct (decide _); cbn; rewrite Holder;
    intros Hnil; apply (f_equal length) in Hnil;
    rewrite ?length_app in Hnil; cbn in Hnil; lia.
Qed.

(** X9: after an accepted fire the log holds at most 51 entries, and at
    most 50 unless this shot won the match; the entry of the shot is the
    last one, or the one before the victory entry. *)
Theorem accepted_fire_log_bound (g : game) (slot : Slot) (r c : Z)
    (g' : game) (msg : shotResult) :
  fire_game g slot r c = fire_done g' msg →
  (length (log g') ≤ 51)%nat ∧
  (phase g' = battle → (length (log g') ≤ 50)%nat) ∧
  ∃ older txt,
    let e := {| type := shot (sr_resultType msg); text := txt |} in
    (phase g' = battle ∧ log g' = older ++ [e]) ∨
    (phase g' = finished ∧ winner g' = Some slot ∧
     ∃ victory, type victory = system ∧ log g' = older ++ [e; victory]).
Proof.
  intros H.
  destruct (fire_done_inv _ _ _ _ _ _ H)
    as (b & row & rt & cells & txt & Hph & _ & _ & _ & _ & _ & -> & ->).
  cbn [shot_payload sr_resultType].
  pose proof (apply_shot_log_length g slot rt cells txt) as Hlen.
  pose proof (apply_shot_phase g slot rt cells txt) as Hph1.
  destruct (apply_shot_log_last g slot rt cells txt) as [older Holder].
  set (g1 := apply_shot g slot rt cells txt) in *.
  unfold check_win.
  destruct (decide (totalCells g1 ≤ _)%nat) as [Hwin|Hno]; cbn.
  - rewrite length_app. cbn. split; [lia|]. split; [done|].
    exists older, txt. right. repeat (split; [done|]).
    eexists. split; [|by rewrite Holder, <-app_assoc]. done.
  - split; [lia|]. split; [done|]. exists older, txt. left.
    split; [congruence | done].
Qed.

Lemma accepted_fire_log_bound_witness :
  ∃ g' msg,
    fire_game battle_game P1 0 0 = fire_done g' msg ∧
    (length (log g') ≤ 51)%nat.
Proof.
  destruct (fire_game battle_game P1 0 0) as [| | |g' msg] eqn:H;
    [vm_compute in H; discriminate..|].
  exists g', msg. split; [done|].
  by destruct (accepted_fire_log_bound _ _ _ _ _ _ H) as [Hlen _].
Defined.

(** X10: the log broadcast with a shot result is made of the newest
    entries of the session log, ten of them or the whole log when it is
    shorter, and ends with the same entry. *)
Theorem broadcast_log_is_newest_ten (g : game) (slot : Slot) (r c : Z)
    (g' : game) (msg : shotResult) :
  fire_game g slot r c = fire_done g' msg →
  sr_log msg `suffix_of` log g' ∧
  length (sr_log msg) = (10 `min` length (log g'))%nat ∧
  last (sr_log msg) = last (log g').
Proof.
  intros H.
  pose proof (fire_done_log_nonempty _ _ _ _ _ _ H) as Hne.
  destruct (fire_done_inv _ _ _ _ _ _ H)
    as (b & row & rt & cells & txt & _ & _ & _ & _ & _ & _ & Hg' & ->).
  cbn [shot_payload sr_log]. split; [apply slice_last_suffix|].
  split; [apply slice_last_length|].
  apply suffix_last; [apply slice_last_suffix|].
  intros Hnil. apply (f_equal length) in Hnil.
  rewrite slice_last_length in Hnil.
  destruct (log g'); [done|]. cbn in Hnil. lia.
Qed.

Lemma broadcast_log_is_newest_ten_witness :
  ∃ g' msg,
    fire_game battle_game P1 0 0 = fire_done g' msg ∧
    length (sr_log msg) = 2%nat.
Proof.
  destruct (fire_game battle_game P1 0 0) as [| | |g' msg] eqn:H;
    [vm_compute in H; discriminate..|].
  exists g', msg. split; [done|].
  destruct (broadcast_log_is_newest_ten _ _ _ _ _ _ H) as (_ & Hlen & _).
  rewrite Hlen. vm_compute in H. injection H as <- _. reflexivity.
Defined.

(** ** Getting ready *)

(** X20: when neither side is ready yet, the game that results from both
    submissions does not depend on which side submitted first: the battle
    starts once, with one battle-start entry appended to the log and the
    turn unchanged. *)
Theorem ready_order_is_irrelevant (g : game) (b1 b2 : Board)
    (sh1 sh2 : gmap Z (list cell)) :
  ready (p1 g) = false → ready (p2 g) = false →
  let first_then_second :=
    (ready_game (ready_game g P1 b1 sh1).1 P2 b2 sh2).1 in
  let second_then_first :=
    (ready_game (ready_game g P2 b2 sh2).1 P1 b1 sh1).1 in
  first_then_second = second_then_first ∧
  phase (ready_game g P1 b1 sh1).1 = phase g ∧
  phase (ready_game g P2 b2 sh2).1 = phase g ∧
  phase first_then_second = battle ∧
  log first_then_second =
    log g ++ [{| type := system; text := "БОЙ НАЧАЛСЯ!" |}] ∧
  turn first_then_second = turn g.
Proof.
  intros H1 H2. cbn zeta. unfold ready_game. cbn. rewrite H1, H2. cbn. done.
Qed.

Lemma ready_order_is_irrelevant_witness :
  let g := new_game {| pl_id := "a"; pl_name := "A" |}
                    {| pl_id := "b"; pl_name := "B" |} in
  phase (ready_game (ready_game g P2 fleet_board fleet_ships).1
           P1 fleet_board fleet_ships).1 = battle.
Proof.
  intros g.
  destruct (ready_order_is_irrelevant g fleet_board fleet_board
              fleet_ships fleet_ships eq_refl eq_refl)
    as (Heq & _ & _ & Hph & _).
  rewrite <-Heq. exact Hph.
Defined.

(** X21: [player_ready] from a socket that is not bound to a registered
    game changes nothing and emits nothing; otherwise it leaves the Waiting
    Slot, the sockets, the timers and every other game as they were, and
    in the bound game it writes only the submitter's board, layout and
    ready flag, the phase and the log: both Shot Records, the turn, the
    winner and the opponent's side are untouched. *)
Theorem player_ready_touches_one_side (st : server) (sid : string)
    (b : Board) (sh : gmap Z (list cell)) :
  let st' := (on_player_ready st sid b sh).1 in
  let out := (on_player_ready st sid b sh).2 in
  waitingPlayer st' = waitingPlayer st ∧ sockets st' = sockets st ∧
  timers st' = timers st ∧
  match binding (sock st sid) with
  | None => st' = st ∧ out = []
  | Some (gid, slot) =>
    match games st !! gid with
    | None => st' = st ∧ out = []
    | Some g =>
      ∃ g', games st' = <[gid := g']> (games st) ∧
        get_side g' (opponent slot) = get_side g (opponent slot) ∧
        get_side g' slot =
          {| side_id := side_id (get_side g slot);
             side_name := side_name (get_side g slot);
             board := Some b; ships := Some sh; ready := true;
             shotsFired := shotsFired (get_side g slot) |} ∧
        turn g' = turn g ∧ winner g' = winner g ∧
        phase g' = (if ready (get_side g (opponent slot))
                    then battle else phase g) ∧
        hd_error out = Some (to_socket sid, you_are_ready)
    end
  end.
Proof.
  cbn zeta. unfold on_player_ready.
  destruct (binding (sock st sid)) as [[gid slot]|]; [|done].
  destruct (games st !! gid) as [g|]; [|done].
  pose proof (ready_game_frame g slot b sh) as (Ho & Hs & _ & _ & Ht & Hw).
  pose proof (ready_game_phase g slot b sh) as Hph.
  destruct (ready_game g slot b sh) as [g' started]. cbn in *.
  repeat (split; [done|]). exists g'. by rewrite Ho, Hs.
Qed.

(** ** Leaving *)

(** X22: a participant that disconnects while waiting is never paired: the
    next connection to join finds the Waiting Slot empty, is stored there
    itself, and no game is created. *)
Theorem left_queue_is_not_paired (st : server) (w : player)
    (sid2 name : string) :
  waitingPlayer st = Some w →
  let st1 := (on_disconnect st (pl_id w)).1 in
  waitingPlayer st1 = None ∧
  waitingPlayer (on_join_queue st1 sid2 name).1
    = Some {| pl_id := sid2; pl_name := name |} ∧
  games (on_join_queue st1 sid2 name).1 = games st1 ∧
  (on_join_queue st1 sid2 name).2 = [(to_socket sid2, waiting 1)].
Proof.
  intros Hw. cbn zeta.
  assert (Hq : waitingPlayer (on_disconnect st (pl_id w)).1 = None).
  { unfold on_disconnect. cbn zeta.
    assert (Hl : waitingPlayer (leave_queue st (pl_id w)) = None).
    { unfold leave_queue. rewrite Hw. by rewrite decide_True. }
    destruct (binding _) as [[gid slot]|]; [|done].
    destruct (games _ !! gid) as [g|]; [|done].
    by destruct (decide (phase g ≠ finished)). }
  split; [done|]. unfold on_join_queue.
  replace (waitingPlayer (socket_set_name _ sid2 name)) with (@None player)
    by (by rewrite <-Hq).
  done.
Qed.

Lemma left_queue_is_not_paired_witness :
  let st := after [join_queue "a" "A"] in
  waitingPlayer st = Some {| pl_id := "a"; pl_name := "A" |} ∧
  games (on_join_queue (on_disconnect st "a").1 "b" "B").1 = ∅.
Proof.
  intros st.
  assert (Hw : waitingPlayer st = Some {| pl_id := "a"; pl_name := "A" |})
    by reflexivity.
  split; [exact Hw|].
  destruct (left_queue_is_not_paired st _ "b" "B" Hw) as (_ & _ & Hg & _).
  cbn [pl_id] in Hg. rewrite Hg. vm_compute. reflexivity.
Defined.

(** The disconnection of a socket bound to a registered game. *)
Lemma on_disconnect_bound (st : server) (sid gid : string) (slot : Slot)
    (g : game) :
  binding (sock st sid) = Some (gid, slot) →
  games st !! gid = Some g →
  on_disconnect st sid =
    if decide (phase g ≠ finished) then
      (set_timers
         (set_games (leave_queue st sid)
            (<[gid := set_phase g finished]> (games st)))
         (timers st ++ [(60000, gid)]),
       [(to_room_except gid sid, opponent_disconnected)])
    else
      (set_timers (leave_queue st sid) (timers st ++ [(60000, gid)]), []).
Proof.
  intros Hb Hg. unfold on_disconnect. cbn zeta.
  rewrite sock_leave_queue, Hb, leave_queue_games, Hg.
  destruct (decide (phase g ≠ finished)); cbn;
    by rewrite ?leave_queue_games, leave_queue_timers.
Qed.

(** X23: when both sides of a running game disconnect one after the
    other, the first disconnection notifies the rest of the room and sets
    the phase to finished, touching nothing else of the game; the second
    emits nothing and changes no game; each schedules one removal. *)
Theorem both_sides_disconnect (st : server) (sid1 sid2 gid : string)
    (s1 s2 : Slot) (g : game) :
  binding (sock st sid1) = Some (gid, s1) →
  binding (sock st sid2) = Some (gid, s2) →
  games st !! gid = Some g → phase g ≠ finished →
  let r1 := on_disconnect st sid1 in
  let r2 := on_disconnect r1.1 sid2 in
  r1.2 = [(to_room_except gid sid1, opponent_disconnected)] ∧
  games r1.1 = <[gid := set_phase g finished]> (games st) ∧
  r2.2 = [] ∧ games r2.1 = games r1.1 ∧
  timers r2.1 = timers st ++ [(60000, gid); (60000, gid)].
Proof.
  intros Hb1 Hb2 Hg Hph. cbn zeta.
  rewrite (on_disconnect_bound st sid1 gid s1 g Hb1 Hg).
  rewrite decide_True by done. cbn [fst snd].
  set (st1 := set_timers _ _).
  assert (Hb2' : binding (sock st1 sid2) = Some (gid, s2)).
  { unfold sock, st1. cbn. rewrite leave_queue_sockets. exact Hb2. }
  assert (Hg' : games st1 !! gid = Some (set_phase g finished))
    by apply lookup_insert_eq.
  rewrite (on_disconnect_bound st1 sid2 gid s2 _ Hb2' Hg').
  rewrite decide_False by (by intros []). cbn.
  rewrite leave_queue_games. repeat (split; [done|]).
  by rewrite <-app_assoc.
Qed.

Lemma both_sides_disconnect_witness :
  let r1 := on_disconnect (after opening) "a" in
  let r2 := on_disconnect r1.1 "b" in
  r1.2 = [(to_room_except "a_b" "a", opponent_disconnected)] ∧ r2.2 = [] ∧
  timers r2.1 = [(60000, "a_b"); (60000, "a_b")].
Proof.
  destruct (both_sides_disconnect (after opening) "a" "b" "a_b" P1 P2
              battle_game) as (H1 & _ & H2 & _ & Ht);
    [vm_compute; reflexivity | vm_compute; reflexivity
    | vm_compute; reflexivity | discriminate |].
  cbn zeta. split; [exact H1|]. split; [exact H2|]. exact Ht.
Defined.

(** X24: once the timer has removed a game, a second removal changes
    nothing, and the requests of a socket still bound to that game are
    ignored: fire and player_ready leave the state as it is and emit
    nothing, and its disconnection emits nothing and schedules nothing. *)
Theorem removed_session_is_inert (st : server) (sid gid : string)
    (slot : Slot) :
  binding (sock st sid) = Some (gid, slot) →
  let st' := on_timeout st gid in
  games st' !! gid = None ∧
  on_timeout st' gid = st' ∧
  (∀ r c, on_fire st' sid r c = Ok (st', [])) ∧
  (∀ b sh, on_player_ready st' sid b sh = (st', [])) ∧
  on_disconnect st' sid = (leave_queue st' sid, []).
Proof.
  intros Hb. cbn zeta.
  assert (Hg : games (on_timeout st gid) !! gid = None)
    by apply lookup_delete_eq.
  assert (Hb' : binding (sock (on_timeout st gid) sid) = Some (gid, slot))
    by exact Hb.
  split; [done|]. split; [|split; [|split]].
  - unfold on_timeout, set_games. cbn. by rewrite delete_delete_eq.
  - intros r c. unfold on_fire. by rewrite Hb', Hg.
  - intros b sh. unfold on_player_ready. by rewrite Hb', Hg.
  - unfold on_disconnect. cbn zeta.
    by rewrite sock_leave_queue, Hb', leave_queue_games, Hg.
Qed.

Lemma removed_session_is_inert_witness :
  let st := on_timeout (after (opening ++ [disconnect "a"])) "a_b" in
  binding (sock (after (opening ++ [disconnect "a"])) "b") = Some ("a_b", P2) ∧
  on_fire st "b" 0 0 = Ok (st, []).
Proof.
  intros st.
  assert (Hb : binding (sock (after (opening ++ [disconnect "a"])) "b")
               = Some ("a_b", P2)) by (vm_compute; reflexivity).
  split; [exact Hb|].
  destruct (removed_session_is_inert _ _ _ _ Hb) as (_ & _ & Hf & _).
  apply Hf.
Defined.

(** ** Identifiers and labels *)

Lemma string_app_inj_length (s1 : string) : ∀ s2 t1 t2,
  String.length s1 = String.length s2 →
  s1 +:+ t1 = s2 +:+ t2 → s1 = s2 ∧ t1 = t2.
Proof.
  induction s1 as [|a s1 IH]; intros [|b s2] t1 t2 Hlen Heq; try done.
  injection Heq as -> Heq. injection Hlen as Hlen.
  by destruct (IH s2 t1 t2 Hlen Heq) as [-> ->].
Qed.

Lemma string_app_assoc (s1 s2 s3 : string) :
  (s1 +:+ s2) +:+ s3 = s1 +:+ (s2 +:+ s3).
Proof.
  induction s1 as [|a s1 IH]; [reflexivity|].
  change (String a ((s1 +:+ s2) +:+ s3) = String a (s1 +:+ (s2 +:+ s3))).
  by rewrite IH.
Qed.

(** X25: the game id determines the two connection ids when the first
    ids have the same length; without that it does not, since an
    underscore inside an id moves the split: the pair (x_y, z) and the
    pair (x, y_z) get the same game id. *)
Theorem gameId_determines_ids :
  (∀ a b a' b',
     String.length (pl_id a) = String.length (pl_id a') →
     make_gameId a b = make_gameId a' b' →
     pl_id a = pl_id a' ∧ pl_id b = pl_id b') ∧
  (∀ x y z n1 n2 n3 n4,
     make_gameId {| pl_id := x +:+ "_" +:+ y; pl_name := n1 |}
                 {| pl_id := z; pl_name := n2 |} =
     make_gameId {| pl_id := x; pl_name := n3 |}
                 {| pl_id := y +:+ "_" +:+ z; pl_name := n4 |}).
Proof.
  split.
  - intros a b a' b' Hlen Heq. unfold make_gameId in Heq.
    apply string_app_inj_length in Heq as [-> Heq]; [|done].
    split; [done|]. by injection Heq.
  - intros x y z n1 n2 n3 n4. unfold make_gameId. cbn [pl_id].
    by rewrite !string_app_assoc.
Qed.

Lemma cols_letters :
  NoDup cols ∧ Forall (λ letter, String.length letter = 2%nat) cols.
Proof.
  split.
  - unfold cols. repeat (apply NoDup_cons; split;
      [rewrite ?elem_of_cons, elem_of_nil; intros H;
       repeat (destruct H as [H|H]; [discriminate|]); done|]).
    apply NoDup_nil_2.
  - unfold cols. repeat (apply Forall_cons; split; [reflexivity|]).
    apply Forall_nil_2.
Qed.

Lemma coord_label_column (r c : Z) :
  0 ≤ c < 10 →
  ∃ letter, cols !! Z.to_nat c = Some letter ∧
            coord_label r c = letter +:+ pretty (r + 1).
Proof.
  intros Hc. unfold coord_label. rewrite decide_True by lia.
  destruct (cols !! Z.to_nat c) as [letter|] eqn:Hl; [by eexists|].
  apply lookup_ge_None in Hl. cbn in Hl. lia.
Qed.

(** The label of an accepted fire is taken at a row of the opponent's
    board. *)
Lemma fire_done_row_in_board (g : game) (slot : Slot) (r c : Z) (g' : game)
    (msg : shotResult) :
  fire_game g slot r c = fire_done g' msg →
  ∃ b, board (get_side g (opponent slot)) = Some b ∧
       0 ≤ r < Z.of_nat (length b).
Proof.
  intros H.
  destruct (fire_done_resolvable _ _ _ _ _ _ H) as (b & row & Hb & Hr & Hrow & _).
  exists b. split; [done|]. apply lookup_lt_Some in Hrow. lia.
Qed.

(** X26: on the ten columns of the alphabet and on the rows where
    [r + 1] is exact (from 0 up to 2^53 - 2, which covers every row of a
    board), the coordinate label determines the coordinate: two labels
    are equal only for the same row and the same column. *)
Theorem coord_label_injective (r c r' c' : Z) :
  0 ≤ c < 10 → 0 ≤ c' < 10 → safe_row r → safe_row r' →
  coord_label r c = coord_label r' c' → r = r' ∧ c = c'.
Proof.
  intros Hc Hc' _ _ Heq.
  destruct (coord_label_column r c Hc) as (l1 & Hl1 & E1).
  destruct (coord_label_column r' c' Hc') as (l2 & Hl2 & E2).
  rewrite E1, E2 in Heq.
  destruct cols_letters as [Hnd Hlen].
  rewrite Forall_forall in Hlen.
  apply string_app_inj_length in Heq as [-> Hp].
  - split.
    + apply (inj pretty) in Hp. lia.
    + pose proof (NoDup_lookup _ _ _ _ Hnd Hl1 Hl2). lia.
  - rewrite (Hlen l1), (Hlen l2); [done|..]; by eapply list_elem_of_lookup_2.
Qed.

Lemma coord_label_injective_witness :
  coord_label 0 0 = "А1" ∧ coord_label 9 9 = "К10" ∧
  coord_label 0 0 ≠ coord_label 9 9.
Proof.
  split; [reflexivity|]. split; [reflexivity|]. intros Heq.
  destruct (coord_label_injective 0 0 9 9) as [H _];
    [lia | lia | unfold safe_row; lia | unfold safe_row; lia | exact Heq|].
  discriminate.
Defined.

(** ** Witnesses of the earlier lemmas *)

Lemma fire_preserves_record_agrees_witness :
  ∃ g' msg,
    fire_game battle_game P1 1 1 = fire_done g' msg ∧
    record_agrees (shotsFired (get_side g' P1)) (get_side g' P2).
Proof.
  destruct (fire_game battle_game P1 1 1) as [| | |g' msg] eqn:H;
    [vm_compute in H; discriminate..|].
  exists g', msg. split; [done|].
  apply (fire_preserves_record_agrees battle_game P1 1 1 g' msg H).
  intros b x _ Hx.
  change ((∅ : gmap string ResultType) !! cell_key x = Some miss) in Hx.
  rewrite lookup_empty in Hx. discriminate.
Defined.

Lemma fire_disconnect_keep_finished_witness :
  let st := after (opening ++ [disconnect "a"]) in
  ∃ g st' out g',
    games st !! "a_b" = Some g ∧ phase g = finished ∧
    step st (disconnect "b") = Ok (st', out) ∧
    games st' !! "a_b" = Some g' ∧ phase g' = finished.
Proof.
  intros st.
  destruct (games st !! "a_b") as [g|] eqn:Hg; [|vm_compute in Hg; discriminate].
  assert (Hph : phase g = finished).
  { vm_compute in Hg. by injection Hg as <-. }
  destruct (step st (disconnect "b")) as [[st' out]|] eqn:Hstep;
    [|discriminate].
  destruct (fire_disconnect_keep_finished st (disconnect "b") st' out "a_b" g)
    as (g' & Hg' & Hph');
    [right; by eexists | exact Hstep | exact Hg | exact Hph |].
  exists g, st', out, g'.
  repeat split; first [reflexivity | assumption].
Defined.

Lemma session_events_leave_placement_witness :
  ∃ st' out g',
    step (after opening) (fire "a" 0 0) = Ok (st', out) ∧
    games st' !! "a_b" = Some g' ∧ phase g' ≠ placement.
Proof.
  destruct (step (after opening) (fire "a" 0 0)) as [[st' out]|] eqn:Hstep;
    [|vm_compute in Hstep; discriminate].
  destruct (session_events_leave_placement (after opening) (fire "a" 0 0)
              st' out "a_b" battle_game)
    as (g' & Hg' & Hph');
    [right; left; by eexists _, _, _ | done | vm_compute; reflexivity
    | discriminate |].
  by exists st', out, g'.
Defined.
